(** * Ramble application directives: a shallow embedding

    Source: [lib/ramble/ramble/language/application_language.py].

    Every directive of the application language is a factory: called at
    class-definition time, it captures its arguments and returns a closure
    [_execute_<directive>(app)] which, when the application object is
    constructed, mutates one of the object's dictionaries.  Here a closure
    is a function from the application state to an [outcome]; an outcome
    keeps the state reached when an exception is raised, because Python
    mutations performed before a [raise] are not rolled back. *)

From Stdlib Require Import Ascii String.
From stdpp Require Import gmap strings list fin_maps.

(** ** Python values reaching the directives *)

(** The directive arguments whose Python type the code inspects (by
    [isinstance], by truthiness or by the helper functions) range over
    this small universe; sequence elements are names, hence strings. *)
Inductive pyval :=
| PyNone
| PyBool (b : bool)
| PyStr (s : string)
| PyList (l : list string)
| PyTuple (l : list string).

#[global] Instance pyval_eq_dec : EqDecision pyval.
Proof. solve_decision. Defined.

(** [bool(v)], the test behind [if v:]. *)
Definition truthy (v : pyval) : bool :=
  match v with
  | PyNone => false
  | PyBool b => b
  | PyStr s => negb (bool_decide (s = EmptyString))
  | PyList l | PyTuple l => negb (bool_decide (l = []))
  end.

(** [isinstance(v, list)]. *)
Definition isinstance_list (v : pyval) : bool :=
  match v with
  | PyList _ => true
  | _ => false
  end.

(** The elements visited by [for x in v] when [v] is a list. *)
Definition iter_list (v : pyval) : list string :=
  match v with
  | PyList l => l
  | _ => []
  end.

(** *** [str] and [repr], as used by the f-strings of the error messages *)

Definition squote : ascii := Ascii.ascii_of_nat 39.
Definition dquote : ascii := Ascii.ascii_of_nat 34.
Definition backslash : ascii := Ascii.ascii_of_nat 92.

Definition char_str (c : ascii) : string := String c EmptyString.

Definition hex_digit (n : nat) : ascii :=
  default "0"%char (String.get n "0123456789abcdef").

Fixpoint has_char (c : ascii) (s : string) : bool :=
  match s with
  | EmptyString => false
  | String d s' => if Ascii.eqb c d then true else has_char c s'
  end.

(** One character of [repr(s)] for the quote [q] chosen for [s].  Bytes
    above 127 stand for the UTF-8 encoding of printable text and are kept:
    the function is exact on ASCII and on printable non-ASCII text, and a
    non-printable code point above 127, which Python writes as an escape,
    is outside what it describes. *)
Definition repr_char (q c : ascii) : string :=
  let n := Ascii.nat_of_ascii c in
  if Ascii.eqb c q || Ascii.eqb c backslash then String backslash (char_str c)
  else if Nat.eqb n 9 then String backslash "t"
  else if Nat.eqb n 10 then String backslash "n"
  else if Nat.eqb n 13 then String backslash "r"
  else if Nat.ltb n 32 || Nat.eqb n 127
       then String backslash
              (String "x" (String (hex_digit (n / 16)) (char_str (hex_digit (n mod 16)))))
  else char_str c.

Fixpoint repr_chars (q : ascii) (s : string) : string :=
  match s with
  | EmptyString => EmptyString
  | String c s' => repr_char q c +:+ repr_chars q s'
  end.

(** [repr] of a [str]: single quotes, unless the text holds a single
    quote and no double quote. *)
Definition repr_str (s : string) : string :=
  let q := if has_char squote s && negb (has_char dquote s) then dquote else squote in
  String q (repr_chars q s +:+ char_str q).

Fixpoint join (sep : string) (l : list string) : string :=
  match l with
  | [] => EmptyString
  | [x] => x
  | x :: l' => x +:+ sep +:+ join sep l'
  end.

(** [repr] of a [list] of [str]. *)
Definition repr_list (l : list string) : string :=
  "[" +:+ join ", " (repr_str <$> l) +:+ "]".

(** [str(pipeline)] for the [pipeline] keyword, whose default is [None]. *)
Definition str_opt (p : option string) : string :=
  match p with
  | None => "None"
  | Some s => s
  end.

(** ** Order-preserving removal of duplicates *)

(** [dedupe_from key seen l] walks [l] and keeps an element when its key
    has not been met, neither in [seen] nor earlier in [l]: the first
    occurrence survives. *)
Section dedupe.
Context {A K : Type} `{EqDecision K} (key : A → K).

Fixpoint dedupe_from (seen : list K) (l : list A) : list A :=
  match l with
  | [] => []
  | x :: l' =>
    if decide (key x ∈ seen) then dedupe_from seen l'
    else x :: dedupe_from (key x :: seen) l'
  end.

Definition dedupe_by (l : list A) : list A := dedupe_from [] l.
End dedupe.

Definition dedupe (l : list string) : list string := dedupe_by id l.

(** ** Exceptions and outcomes *)

Inductive exn :=
| DirectiveError (msg : string).

(** What a helper that may raise hands back to its caller. *)
Inductive result (A : Type) :=
| Ok (a : A)
| Err (e : exn).
Arguments Ok {A} a.
Arguments Err {A} e.

(** ** The application object *)

(** Modelled from the spec: the [OUTPUT_CAPTURE] enumeration of
    [ramble.schema.types], with members STDOUT, STDERR, ALL and DEFAULT. *)
Inductive OUTPUT_CAPTURE := STDOUT | STDERR | ALL | DEFAULT.

(** Modelled from the spec: the object built by the [CommandExecutable]
    class of [ramble.util.executable], whose source lies outside
    [application_language.py].  The spec's Executable record: name,
    template, use_mpi, redirect, output_capture and a variables mapping. *)
Record Executable := mkExecutable {
  exe_name : string;
  exe_template : pyval;
  exe_use_mpi : bool;
  exe_redirect : string;
  exe_output_capture : OUTPUT_CAPTURE;
  exe_variables : gmap string string
}.

(** The attributes of the application object the directives read or write.
    [app_name] is [app.name]; [_pipelines] is the class attribute listing
    the recognised pipelines.  Every Python dict is a [gmap]. *)
Record Application := mkApplication {
  app_name : string;
  _pipelines : list string;
  workloads : gmap string (gmap string (list string));
  executables : gmap string Executable;
  workload_variables : gmap string (gmap string (gmap string pyval));
  phase_definitions : gmap string (gmap string (list string))
}.

Definition set_workloads
    (f : gmap string (gmap string (list string)) → gmap string (gmap string (list string)))
    (app : Application) : Application :=
  mkApplication (app_name app) (_pipelines app) (f (workloads app)) (executables app)
    (workload_variables app) (phase_definitions app).

Definition set_executables
    (f : gmap string Executable → gmap string Executable)
    (app : Application) : Application :=
  mkApplication (app_name app) (_pipelines app) (workloads app) (f (executables app))
    (workload_variables app) (phase_definitions app).

Definition set_workload_variables
    (f : gmap string (gmap string (gmap string pyval)) →
         gmap string (gmap string (gmap string pyval)))
    (app : Application) : Application :=
  mkApplication (app_name app) (_pipelines app) (workloads app) (executables app)
    (f (workload_variables app)) (phase_definitions app).

Definition set_phase_definitions
    (f : gmap string (gmap string (list string)) → gmap string (gmap string (list string)))
    (app : Application) : Application :=
  mkApplication (app_name app) (_pipelines app) (workloads app) (executables app)
    (workload_variables app) (f (phase_definitions app)).

(** The result of running a closure: the state it finished in, or the
    exception raised and the state at the [raise]. *)
Inductive outcome :=
| Done (app : Application)
| Raised (e : exn) (app : Application).

Definition final_state (o : outcome) : Application :=
  match o with
  | Done app | Raised _ app => app
  end.

(** ** [register_phase] *)

(** [d[k]] on a dict known to hold [k]; the directives index only after
    having ensured the key. *)
Definition getitem {V} `{Inhabited V} (d : gmap string V) (k : string) : V := d !!! k.

(** One turn of the loop
    [if dep not in app.phase_definitions[pipeline][name]:
         app.phase_definitions[pipeline][name].append(dep)]. *)
Definition append_if_missing (pipeline name dep : string) (app : Application) : Application :=
  let deps := getitem (getitem (phase_definitions app) pipeline) name in
  if decide (dep ∈ deps) then app
  else set_phase_definitions
         (λ pd, <[pipeline := <[name := deps ++ [dep]]> (getitem pd pipeline)]> pd) app.

(** [if pipeline not in app.phase_definitions:
        app.phase_definitions[pipeline] = {}]. *)
Definition ensure_pipeline (pipeline : string) (app : Application) : Application :=
  if decide (is_Some (phase_definitions app !! pipeline)) then app
  else set_phase_definitions (λ pd, <[pipeline := ∅]> pd) app.

(** [if name not in app.phase_definitions[pipeline]:
        app.phase_definitions[pipeline][name] = []]. *)
Definition ensure_phase (pipeline name : string) (app : Application) : Application :=
  if decide (is_Some (getitem (phase_definitions app) pipeline !! name)) then app
  else set_phase_definitions
         (λ pd, <[pipeline := <[name := []]> (getitem pd pipeline)]> pd) app.

(** [pipeline in app._pipelines]: the dict key when the test holds.  A
    [None] pipeline (the keyword's default) is in no list of names. *)
Definition recognized (pipeline : option string) (app : Application) : option string :=
  match pipeline with
  | Some p => if decide (p ∈ _pipelines app) then Some p else None
  | None => None
  end.

Definition _execute_register_phase
    (name : string) (pipeline : option string) (depends_on : pyval)
    (app : Application) : outcome :=
  match recognized pipeline app with
  | None =>
    Raised (DirectiveError
              ("Directive register_phase was given an invalid pipeline "
               +:+ char_str dquote +:+ str_opt pipeline +:+ char_str dquote
               +:+ char_str (Ascii.ascii_of_nat 10)
               +:+ "Available pipelines are:  " +:+ repr_list (_pipelines app))) app
  | Some p =>
    if negb (isinstance_list depends_on) then
      Raised (DirectiveError
                ("Directive register_phase was given an invalid type for "
                 +:+ "the depends_on attribute in application " +:+ app_name app)) app
    else
      let app := ensure_pipeline p app in
      let app := ensure_phase p name app in
      Done (foldl (λ a dep, append_if_missing p name dep a) app (iter_list depends_on))
  end.

(** *** Reading the dependency graph *)

(** The dependencies recorded for phase [n] of pipeline [p]; none when
    [phase_definitions[p][n]] does not exist. *)
Definition phase_deps (app : Application) (p n : string) : list string :=
  default [] (phase_definitions app !! p ≫= λ m, m !! n).

(** What the loop of [register_phase] computes on the list it extends. *)
Definition merge_deps (cur deps : list string) : list string :=
  foldl (λ acc dep, if decide (dep ∈ acc) then acc else acc ++ [dep]) cur deps.

(** The whole successful path of [register_phase] on the graph. *)
Definition pd_register (p n : string) (deps : list string)
    (pd : gmap string (gmap string (list string))) : gmap string (gmap string (list string)) :=
  let m := default ∅ (pd !! p) in
  <[p := <[n := merge_deps (default [] (m !! n)) deps]> m]> pd.

(** ** Running closures in sequence *)

(** Modelled from the spec: the composition pass of the directive
    metaclass ([ramble.language.language_base], whose source lies outside
    [application_language.py]) executes the closures in order against the
    instance and stops at the first one that raises. *)
Fixpoint run_steps (steps : list (Application → outcome)) (app : Application) : outcome :=
  match steps with
  | [] => Done app
  | s :: rest =>
    match s app with
    | Done app' => run_steps rest app'
    | Raised e app' => Raised e app'
    end
  end.

(** Repeated registrations of one phase of one pipeline, one call per
    [depends_on] list. *)
Definition register_phase_calls (name pipeline : string) (Ds : list (list string))
    : list (Application → outcome) :=
  (λ D, _execute_register_phase name (Some pipeline) (PyList D)) <$> Ds.

(** The reading of [sequence type] under which a tuple is a sequence and
    a bare string is not. *)
Definition is_sequence (v : pyval) : Prop :=
  match v with
  | PyList _ | PyTuple _ => True
  | _ => False
  end.

Definition raises (o : outcome) : Prop :=
  match o with
  | Raised _ _ => True
  | Done _ => False
  end.

(** [app.workload_variables[wl_name][name]], when it exists. *)
Definition variable_entry (app : Application) (wl_name name : string)
    : option (gmap string pyval) :=
  workload_variables app !! wl_name ≫= λ vars, vars !! name.

(** The entry [workload_variable] writes. *)
Definition variable_record (default : pyval) (description : string) (values : pyval)
    (expandable : bool) : gmap string pyval :=
  let entry := {[ "default" := default;
                  "description" := PyStr description;
                  "expandable" := PyBool expandable ]} in
  if truthy values then <["values" := values]> entry else entry.

(** An argument was supplied: it is not the [None] default. *)
Definition supplied (v : pyval) : Prop := v ≠ PyNone.

(** A piece of text occurs in a message. *)
Definition occurs_in (piece msg : string) : Prop :=
  ∃ pre post, msg = pre +:+ piece +:+ post.

(** ** The helpers of [ramble.language.language_helpers] *)

Module language_helpers.

(** Modelled from the spec: the names an argument of the two helpers
    resolves to.  A bare string counts as a one-element sequence, a
    sequence is its elements, anything else is no name. *)
Definition names_of (v : pyval) : list string :=
  match v with
  | PyStr s => [s]
  | PyList l | PyTuple l => l
  | PyNone | PyBool _ => []
  end.

(** Modelled from the spec: [require_definition] (the source of its
    module lies outside [application_language.py]).  Exactly one of the
    singular and plural arguments must be supplied and resolve to a
    non-empty sequence of names (a bare string counts as a one-element
    sequence): an argument that resolves to no name, [None] or an empty
    sequence, counts as not supplied.  It fails with an error naming the
    calling directive if neither is given or the resulting sequence is
    empty, and if both are supplied; it returns the ordered sequence with
    duplicates removed, first occurrence kept. *)
Definition require_definition (single_type multiple_type : pyval)
    (single_arg_name multiple_arg_name directive_name : string) : result (list string) :=
  let complaint :=
    DirectiveError ("Directive " +:+ directive_name +:+ " requires exactly one of "
                    +:+ single_arg_name +:+ " or " +:+ multiple_arg_name
                    +:+ " to be defined.") in
  match names_of single_type, names_of multiple_type with
  | [], [] => Err complaint
  | names, [] | [], names => Ok (dedupe names)
  | _, _ => Err complaint
  end.

(** Modelled from the spec: [merge_definitions] (same module).  Both
    arguments are optional; it returns the ordered union, singular
    first, then plural, duplicates removed, or an empty sequence if
    neither is given; it never fails. *)
Definition merge_definitions (single_type multiple_type : pyval) : list string :=
  dedupe (names_of single_type ++ names_of multiple_type).

End language_helpers.

(** Modelled from the spec: the constructor of [CommandExecutable]
    writes the record verbatim from the keywords it is given; a keyword it
    is not given keeps its default, which for [variables] is the empty
    mapping.  The five keywords are those of the call in
    [_execute_executable]. *)
Definition CommandExecutable (name : string) (template : pyval) (use_mpi : bool)
    (redirect : string) (output_capture : OUTPUT_CAPTURE) : Executable :=
  mkExecutable name template use_mpi redirect output_capture ∅.

(** ** [workload], [executable], [workload_variable] *)

Section directives.
(** The two helpers the closures call, by the signatures of their call
    sites. *)
Variable require_definition :
  pyval → pyval → string → string → string → result (list string).
Variable merge_definitions : pyval → pyval → list string.

(** [executable], [executables], [input] and [inputs] go to the helpers
    as they are.  [tags] is [None] or a list, the closure calling
    [tags.copy()]; [if tags:] holds for a non-empty list only. *)
Definition _execute_workload (name : string)
    (executables executable input inputs : pyval) (tags : option (list string))
    (app : Application) : outcome :=
  let app :=
    set_workloads
      (λ w, <[name := {[ "executables" := []; "inputs" := []; "tags" := [] ]}]> w) app in
  match require_definition executable executables "executable" "executables" "workload" with
  | Err e => Raised e app
  | Ok all_execs =>
    let app :=
      set_workloads
        (λ w, <[name := <["executables" := all_execs]> (getitem w name)]> w) app in
    let all_inputs := merge_definitions input inputs in
    let app :=
      set_workloads
        (λ w, <[name := <["inputs" := all_inputs]> (getitem w name)]> w) app in
    match tags with
    | Some (t :: ts) =>
      Done (set_workloads
              (λ w, <[name := <["tags" := t :: ts]> (getitem w name)]> w) app)
    | Some [] | None => Done app
    end
  end.

(** One turn of the loop of [workload_variable]. *)
Definition define_workload_variable (name : string) (default : pyval)
    (description : string) (values : pyval) (expandable : bool)
    (app : Application) (wl_name : string) : Application :=
  let app :=
    if decide (is_Some (workload_variables app !! wl_name)) then app
    else set_workload_variables (λ wv, <[wl_name := ∅]> wv) app in
  let app :=
    set_workload_variables
      (λ wv, <[wl_name :=
                 <[name := {[ "default" := default;
                              "description" := PyStr description;
                              "expandable" := PyBool expandable ]}]>
                   (getitem wv wl_name)]> wv) app in
  if truthy values then
    set_workload_variables
      (λ wv, <[wl_name :=
                 <[name := <["values" := values]> (getitem (getitem wv wl_name) name)]>
                   (getitem wv wl_name)]> wv) app
  else app.

Definition _execute_workload_variable (name : string) (default : pyval)
    (description : string) (values workload workloads : pyval) (expandable : bool)
    (app : Application) : outcome :=
  match require_definition workload workloads "workload" "workloads" "workload_variable" with
  | Err e => Raised e app
  | Ok all_workloads =>
    Done (foldl (define_workload_variable name default description values expandable)
                app all_workloads)
  end.
End directives.

Definition _execute_executable (name : string) (template : pyval) (use_mpi : bool)
    (variables : gmap string string) (redirect : string) (output_capture : OUTPUT_CAPTURE)
    (app : Application) : outcome :=
  Done (set_executables
          (λ ex, <[name := CommandExecutable name template use_mpi redirect output_capture]> ex)
          app).

(** The closures as the module builds them, calling its own helpers. *)
Definition workload_step :=
  _execute_workload language_helpers.require_definition language_helpers.merge_definitions.
Definition workload_variable_step :=
  _execute_workload_variable language_helpers.require_definition.

(** ** The step registry of the directive metaclass *)

Module language_base.

(** Modelled from the spec: a builder step is a category and a closure,
    created by one directive call and identified by a stable identity,
    not by value ([step_id] stands for the identity of the object). *)
Record BuilderStep := mkStep {
  step_id : nat;
  step_category : string;
  step_closure : Application → outcome
}.

(** Modelled from the spec: an application type, with its base types in
    the order of the class statement and the steps its own body declares,
    in order.  A base shared by two types is the same subterm of both. *)
Inductive AppType :=
| mkType (bases : list AppType) (declared : list BuilderStep).

Definition bases (t : AppType) : list AppType :=
  match t with mkType bs _ => bs end.
Definition declared (t : AppType) : list BuilderStep :=
  match t with mkType _ ds => ds end.

(** Modelled from the spec: when a type is defined, its directly
    declared steps are appended to the concatenation of its ancestors'
    merged step lists, each already fully merged, and the merge
    deduplicates by step identity only.  The deduplication covers the
    declared steps as well: the spec asks for no duplicate even if a
    descendant re-exposes an inherited step object. *)
Fixpoint merged (t : AppType) : list BuilderStep :=
  match t with
  | mkType bs ds => dedupe_by step_id (concat (map merged bs) ++ ds)
  end.

(** [ancestor u v]: [u] is reached from [v] through one or more base
    links. *)
Inductive ancestor : AppType → AppType → Prop :=
| ancestor_base u v : u ∈ bases v → ancestor u v
| ancestor_step u w v : ancestor u w → w ∈ bases v → ancestor u v.

(** [in_hierarchy v t]: [v] is [t] or one of its ancestors. *)
Definition in_hierarchy (v t : AppType) : Prop := v = t ∨ ancestor v t.

(** Each directive call makes a new step object: within the hierarchy
    of [t] no type declares the same object twice and no two types
    declare the same object. *)
Definition fresh_steps (t : AppType) : Prop :=
  (∀ v, in_hierarchy v t → NoDup (step_id <$> declared v)) ∧
  (∀ v w s s', in_hierarchy v t → in_hierarchy w t →
     s ∈ declared v → s' ∈ declared w → step_id s = step_id s' → v = w).

(** Within the hierarchy of [T], each step of [l] comes after the steps
    of the ancestors of the types declaring it, up to the identities in
    [seen]. *)
Definition preceded_from (T : AppType) (seen : list nat) (l : list BuilderStep) : Prop :=
  ∀ l1 x l2 u v s,
    l = l1 ++ x :: l2 → in_hierarchy v T → ancestor u v →
    x ∈ declared v → s ∈ declared u →
    step_id s ∈ seen ∨ step_id s ∈ step_id <$> l1.

End language_base.

(** ** Sample instances *)

(** An instance that has already registered phase [p] of [setup]. *)
Definition registered_app : Application :=
  mkApplication "babelstream" ["setup"; "X"] ∅ ∅ ∅ {[ "setup" := {[ "p" := ["a"] ]} ]}.

(** An instance holding a workload [w]. *)
Definition loaded_app : Application :=
  mkApplication "babelstream" ["setup"]
    {[ "w" := {[ "executables" := ["e1"; "e2"]; "inputs" := ["i"]; "tags" := ["t"] ]} ]}
    ∅ ∅ ∅.

(** A diamond: [type_D] derives from [type_B] and [type_C], which both
    derive from [type_A]. *)
Definition step_a0 : language_base.BuilderStep :=
  language_base.mkStep 0 "executables"
    (_execute_executable "build" (PyStr "make") false ∅ "{log_file}" DEFAULT).
Definition step_a1 : language_base.BuilderStep :=
  language_base.mkStep 1 "workloads"
    (workload_step "w" PyNone (PyStr "build") PyNone PyNone None).
Definition step_b : language_base.BuilderStep :=
  language_base.mkStep 2 "phase_definitions"
    (_execute_register_phase "p" (Some "setup") (PyList ["a"])).
Definition step_c : language_base.BuilderStep :=
  language_base.mkStep 3 "phase_definitions"
    (_execute_register_phase "p" (Some "setup") (PyList ["a"])).
Definition step_d : language_base.BuilderStep :=
  language_base.mkStep 4 "workloads"
    (workload_step "w" PyNone (PyStr "run") PyNone PyNone None).

Definition step_e : language_base.BuilderStep :=
  language_base.mkStep 5 "workloads"
    (workload_step "w" PyNone (PyStr "run") PyNone PyNone None).

Definition type_A := language_base.mkType [] [step_a0; step_a1].
Definition type_B := language_base.mkType [type_A] [step_b].
Definition type_C := language_base.mkType [type_A] [step_c].
Definition type_D := language_base.mkType [type_B; type_C] [step_d].

(** ** [input_file], [environment_variable] *)

(** The application object with the two dictionaries these directives
    write, [app.inputs] and [app.environment_variables], beside the
    attributes of [Application]. *)
Record Instance := mkInstance {
  core : Application;
  inputs : gmap string (gmap string pyval);
  environment_variables : gmap string (gmap string (gmap string pyval))
}.

Definition set_inputs
    (f : gmap string (gmap string pyval) → gmap string (gmap string pyval))
    (app : Instance) : Instance :=
  mkInstance (core app) (f (inputs app)) (environment_variables app).

Definition set_environment_variables
    (f : gmap string (gmap string (gmap string pyval)) →
         gmap string (gmap string (gmap string pyval)))
    (app : Instance) : Instance :=
  mkInstance (core app) (inputs app) (f (environment_variables app)).

(** The result of running one of their closures, with the state at the
    [raise] as in [outcome]. *)
Inductive instance_outcome :=
| Finished (app : Instance)
| Failed (e : exn) (app : Instance).

Definition instance_state (o : instance_outcome) : Instance :=
  match o with
  | Finished app | Failed _ app => app
  end.

(** The six arguments are stored as they come, whatever their type. *)
Definition _execute_input_file (name : string)
    (url description target_dir sha256 extension expand : pyval)
    (app : Instance) : instance_outcome :=
  Finished
    (set_inputs
       (λ ins, <[name := {[ "url" := url;
                            "description" := description;
                            "target_dir" := target_dir;
                            "sha256" := sha256;
                            "extension" := extension;
                            "expand" := expand ]}]> ins) app).

Section environment_directive.
(** The helper resolving the workload names, by the signature of its call
    site. *)
Variable require_definition :
  pyval → pyval → string → string → string → result (list string).

(** One turn of the loop of [environment_variable]. *)
Definition define_environment_variable (name : string) (value description : pyval)
    (app : Instance) (wl_name : string) : Instance :=
  let app :=
    if decide (is_Some (environment_variables app !! wl_name)) then app
    else set_environment_variables (λ ev, <[wl_name := ∅]> ev) app in
  set_environment_variables
    (λ ev, <[wl_name :=
               <[name := {[ "value" := value;
                            "action" := PyStr "set";
                            "description" := description ]}]>
                 (getitem ev wl_name)]> ev) app.

Definition _execute_environment_variable (name : string) (value description : pyval)
    (workload workloads : pyval) (app : Instance) : instance_outcome :=
  match require_definition workload workloads
          "workload" "workloads" "environment_variable" with
  | Err e => Failed e app
  | Ok all_workloads =>
    Finished (foldl (define_environment_variable name value description) app all_workloads)
  end.
End environment_directive.

(** [app.environment_variables[wl_name][name]], when it exists. *)
Definition environment_entry (app : Instance) (wl_name name : string)
    : option (gmap string pyval) :=
  environment_variables app !! wl_name ≫= λ vars, vars !! name.

(** An instance with an input and an environment variable. *)
Definition stocked_instance : Instance :=
  mkInstance loaded_app
    {[ "data" := {[ "url" := PyStr "http://old"; "description" := PyStr "old";
                    "target_dir" := PyStr "{input_name}"; "sha256" := PyNone;
                    "extension" := PyNone; "expand" := PyBool true ]} ]}
    {[ "w" := {[ "OMP_NUM_THREADS" :=
                   {[ "value" := PyStr "1"; "action" := PyStr "set";
                      "description" := PyStr "threads" ]} ]} ]}.

(** * Properties *)

(** ** Facts about the setters *)

Lemma phase_definitions_set f app :
  phase_definitions (set_phase_definitions f app) = f (phase_definitions app).
Proof. reflexivity. Qed.

Lemma set_phase_definitions_twice f g app :
  set_phase_definitions g (set_phase_definitions f app)
  = set_phase_definitions (λ pd, g (f pd)) app.
Proof. reflexivity. Qed.

Lemma set_phase_definitions_same f app :
  f (phase_definitions app) = phase_definitions app →
  set_phase_definitions f app = app.
Proof. destruct app; unfold set_phase_definitions; simpl; intros ->; reflexivity. Qed.

Lemma set_phase_definitions_ext f g app :
  f (phase_definitions app) = g (phase_definitions app) →
  set_phase_definitions f app = set_phase_definitions g app.
Proof. unfold set_phase_definitions; intros ->; reflexivity. Qed.

(** ** Facts about [dedupe_from] and [merge_deps] *)

Lemma elem_of_concat {A} (x : A) (ls : list (list A)) :
  x ∈ concat ls ↔ ∃ l, l ∈ ls ∧ x ∈ l.
Proof.
  induction ls as [|l ls IH]; simpl.
  - split; [by intros ?%elem_of_nil | by intros (? & ?%elem_of_nil & _)].
  - rewrite elem_of_app, IH. split.
    + intros [?|(l' & ? & ?)]; [exists l; split; [by left|done]|].
      exists l'. split; [by right|done].
    + intros (l' & [->|?]%elem_of_cons & ?); [by left|right; eauto].
Qed.

Section dedupe_facts.
Context {A K : Type} `{EqDecision K} (key : A → K).

Lemma dedupe_from_ext (s1 s2 : list K) (l : list A) :
  (∀ k, k ∈ s1 ↔ k ∈ s2) → dedupe_from key s1 l = dedupe_from key s2 l.
Proof.
  revert s1 s2; induction l as [|x l IH]; intros s1 s2 Hs; simpl; [done|].
  destruct (decide (key x ∈ s1)) as [H1|H1], (decide (key x ∈ s2)) as [H2|H2].
  - by apply IH.
  - by apply Hs in H1.
  - by apply Hs in H2.
  - f_equal. apply IH. intros k. rewrite !elem_of_cons. by rewrite Hs.
Qed.

Lemma elem_of_dedupe_from (seen : list K) (l : list A) (x : A) :
  x ∈ dedupe_from key seen l → x ∈ l ∧ key x ∉ seen.
Proof.
  revert seen; induction l as [|y l IH]; intros seen; simpl.
  - by intros ?%elem_of_nil.
  - destruct (decide (key y ∈ seen)) as [Hy|Hy].
    + intros [? ?]%IH. split; [by right|done].
    + intros [->|[? Hn]%IH]%elem_of_cons; [split; [by left|done]|].
      split; [by right|]. intros ?. apply Hn. by right.
Qed.

Lemma key_dedupe_from (seen : list K) (l : list A) (k : K) :
  k ∈ key <$> dedupe_from key seen l ↔ k ∈ key <$> l ∧ k ∉ seen.
Proof.
  revert seen; induction l as [|y l IH]; intros seen; simpl.
  - split; [by intros ?%elem_of_nil | by intros [?%elem_of_nil _]].
  - destruct (decide (key y ∈ seen)) as [Hy|Hy]; simpl.
    + rewrite IH, elem_of_cons. split; [naive_solver|].
      intros [[->|?] ?]; done.
    + rewrite !elem_of_cons, IH, elem_of_cons.
      destruct (decide (k = key y)) as [->|]; naive_solver.
Qed.

Lemma NoDup_dedupe_from (seen : list K) (l : list A) :
  NoDup (key <$> dedupe_from key seen l).
Proof.
  revert seen; induction l as [|y l IH]; intros seen; simpl; [constructor|].
  destruct (decide (key y ∈ seen)); [apply IH|]. simpl.
  constructor; [|apply IH].
  rewrite key_dedupe_from. intros [_ Hn]. apply Hn. by left.
Qed.

Lemma dedupe_from_app (seen : list K) (l1 l2 : list A) :
  dedupe_from key seen (l1 ++ l2)
  = dedupe_from key seen l1 ++ dedupe_from key (seen ++ (key <$> l1)) l2.
Proof.
  revert seen; induction l1 as [|x l1 IH]; intros seen; simpl.
  - by rewrite app_nil_r.
  - destruct (decide (key x ∈ seen)) as [Hx|Hx].
    + rewrite IH. f_equal. apply dedupe_from_ext. intros k.
      rewrite !elem_of_app, elem_of_cons. naive_solver.
    + simpl. f_equal. rewrite IH. f_equal. apply dedupe_from_ext. intros k.
      rewrite ?elem_of_app, ?elem_of_cons, ?elem_of_app. naive_solver.
Qed.

Lemma dedupe_from_NoDup (seen : list K) (l : list A) :
  NoDup (key <$> l) → (∀ k, k ∈ key <$> l → k ∉ seen) →
  dedupe_from key seen l = l.
Proof.
  revert seen; induction l as [|x l IH]; intros seen Hnd Hs; simpl; [done|].
  simpl in Hnd. apply NoDup_cons in Hnd as [Hx Hnd].
  destruct (decide (key x ∈ seen)) as [Hin|_].
  - exfalso. apply (Hs (key x)); [by left|done].
  - f_equal. apply IH; [done|]. intros k Hk [->|?]%elem_of_cons; [done|].
    apply (Hs k); [by right|done].
Qed.

Lemma dedupe_from_covered (seen : list K) (l : list A) :
  (∀ k, k ∈ key <$> l → k ∈ seen) → dedupe_from key seen l = [].
Proof.
  induction l as [|x l IH]; intros Hs; simpl; [done|].
  destruct (decide (key x ∈ seen)) as [_|Hn].
  - apply IH. intros k Hk. apply Hs. by right.
  - exfalso. apply Hn, Hs. by left.
Qed.

Lemma dedupe_from_ext_on (s1 s2 : list K) (l : list A) :
  (∀ k, k ∈ key <$> l → (k ∈ s1 ↔ k ∈ s2)) →
  dedupe_from key s1 l = dedupe_from key s2 l.
Proof.
  revert s1 s2; induction l as [|x l IH]; intros s1 s2 Hs; simpl; [done|].
  assert (Hx : key x ∈ s1 ↔ key x ∈ s2) by (apply Hs; by left).
  assert (Hl : ∀ k, k ∈ key <$> l → (k ∈ s1 ↔ k ∈ s2)).
  { intros k Hk. apply Hs. by right. }
  destruct (decide (key x ∈ s1)) as [H1|H1], (decide (key x ∈ s2)) as [H2|H2].
  - by apply IH.
  - by apply Hx in H1.
  - by apply Hx in H2.
  - f_equal. apply IH. intros k Hk. rewrite !elem_of_cons. by rewrite (Hl k Hk).
Qed.

Lemma filter_dedupe_from (Q : K → Prop) {Qdec : ∀ k, Decision (Q k)}
    (seen : list K) (l : list A) :
  filter (λ x, Q (key x)) (dedupe_from key seen l)
  = dedupe_from key seen (filter (λ x, Q (key x)) l).
Proof.
  revert seen; induction l as [|x l IH]; intros seen; simpl; [done|].
  rewrite filter_cons.
  destruct (decide (key x ∈ seen)) as [Hx|Hx], (decide (Q (key x))) as [HQ|HQ]; simpl.
  - by rewrite decide_True.
  - done.
  - by rewrite decide_False, filter_cons_True, IH.
  - rewrite filter_cons_False, IH by done. apply dedupe_from_ext_on.
    intros k Hk. rewrite elem_of_cons. split; [|by right].
    intros [->|?]; [|done].
    apply list_elem_of_fmap in Hk as (y & Hy & [HQy _]%list_elem_of_filter).
    rewrite Hy in HQ. done.
Qed.

Lemma filter_concat (P : A → Prop) `{!∀ x, Decision (P x)} (ls : list (list A)) :
  filter P (concat ls) = concat (map (filter P) ls).
Proof. induction ls as [|l ls IH]; simpl; [done|]. by rewrite filter_app, IH. Qed.

Lemma filter_all (P : A → Prop) `{!∀ x, Decision (P x)} (l : list A) :
  (∀ x, x ∈ l → P x) → filter P l = l.
Proof.
  induction l as [|x l IH]; intros Hall; [done|].
  rewrite filter_cons_True by (apply Hall; by left).
  f_equal. apply IH. intros y Hy. apply Hall. by right.
Qed.

(** Deduplicating copies of one duplicate-free block gives the block. *)
Lemma dedupe_blocks (D : list A) (blocks : list (list A)) :
  NoDup (key <$> D) →
  Forall (λ b, b = D ∨ b = []) blocks →
  (dedupe_by key (concat blocks) = D ∨ dedupe_by key (concat blocks) = [])
  ∧ (Exists (λ b, b = D) blocks → dedupe_by key (concat blocks) = D).
Proof.
  intros HD. induction 1 as [|b blocks Hb Hbs IH]; simpl.
  - split; [by right|]. by intros ?%Exists_nil.
  - destruct Hb as [->| ->]; simpl.
    + assert (Heq : dedupe_by key (D ++ concat blocks) = D).
      { unfold dedupe_by. rewrite dedupe_from_app. simpl.
        rewrite dedupe_from_NoDup; [|done|intros k _; apply not_elem_of_nil].
        rewrite dedupe_from_covered; [by rewrite app_nil_r|].
        intros k (x & -> & Hx)%list_elem_of_fmap.
        apply elem_of_concat in Hx as (b & Hb & Hxb).
        rewrite Forall_forall in Hbs. destruct (Hbs b Hb) as [-> | ->].
        - by apply list_elem_of_fmap_2.
        - by apply elem_of_nil in Hxb. }
      split; [by left|done].
    + destruct IH as [IH1 IH2]. split; [done|].
      intros [<-|?]%Exists_cons; [|by apply IH2].
      destruct IH1 as [?|?]; done.
Qed.
End dedupe_facts.

Lemma merge_deps_dedupe (cur deps : list string) :
  merge_deps cur deps = cur ++ dedupe_from id cur deps.
Proof.
  unfold merge_deps. revert cur; induction deps as [|d deps IH]; intros cur; simpl.
  - by rewrite app_nil_r.
  - rewrite IH. destruct (decide (d ∈ cur)); [done|].
    rewrite <- app_assoc. simpl. do 2 f_equal.
    apply dedupe_from_ext. intros k. rewrite elem_of_app, !elem_of_cons, elem_of_nil.
    unfold id. naive_solver.
Qed.

Lemma merge_deps_app (cur d1 d2 : list string) :
  merge_deps cur (d1 ++ d2) = merge_deps (merge_deps cur d1) d2.
Proof. unfold merge_deps. apply foldl_app. Qed.

Lemma merge_deps_prefix (cur deps : list string) : cur `prefix_of` merge_deps cur deps.
Proof. rewrite merge_deps_dedupe. by eexists. Qed.

Lemma merge_deps_NoDup (cur deps : list string) :
  NoDup cur → NoDup (merge_deps cur deps).
Proof.
  intros Hcur. rewrite merge_deps_dedupe. apply NoDup_app. split; [done|]. split.
  - intros x Hx [_ Hn]%(elem_of_dedupe_from id). by apply Hn.
  - pose proof (NoDup_dedupe_from id cur deps) as Hnd. by rewrite list_fmap_id in Hnd.
Qed.

Lemma merge_deps_first_seen (cur deps : list string) :
  NoDup cur → merge_deps cur deps = dedupe (cur ++ deps).
Proof.
  intros Hcur. rewrite merge_deps_dedupe. unfold dedupe, dedupe_by.
  rewrite dedupe_from_app, list_fmap_id. simpl. f_equal.
  symmetry. apply dedupe_from_NoDup; [by rewrite list_fmap_id|].
  intros k _. apply not_elem_of_nil.
Qed.

Lemma elem_of_merge_deps (cur deps : list string) (d : string) :
  d ∈ merge_deps cur deps ↔ d ∈ cur ∨ d ∈ deps.
Proof.
  rewrite merge_deps_dedupe, elem_of_app. split.
  - intros [?|[? _]%(elem_of_dedupe_from id)]; auto.
  - intros [?|Hd]; [by left|].
    destruct (decide (d ∈ cur)); [by left|]. right.
    pose proof (key_dedupe_from id cur deps d) as Hk.
    rewrite !list_fmap_id in Hk. by apply Hk.
Qed.

(** ** The successful path of [register_phase] *)

Lemma register_phase_loop (p n : string) (deps cur : list string)
    (m : gmap string (list string)) (app : Application) :
  phase_definitions app !! p = Some m → m !! n = Some cur →
  foldl (λ a dep, append_if_missing p n dep a) app deps
  = set_phase_definitions (λ pd, <[p := <[n := merge_deps cur deps]> m]> pd) app.
Proof.
  revert cur m app; induction deps as [|d deps IH]; intros cur m app Hp Hn; simpl.
  - symmetry. apply set_phase_definitions_same.
    unfold merge_deps; simpl. by rewrite (insert_id m), insert_id.
  - unfold append_if_missing at 2. unfold getitem.
    rewrite (lookup_total_correct _ _ _ Hp), (lookup_total_correct _ _ _ Hn).
    unfold merge_deps; simpl. fold (merge_deps (if decide (d ∈ cur) then cur else cur ++ [d]) deps).
    destruct (decide (d ∈ cur)) as [Hd|Hd]; [by apply IH|].
    rewrite (IH (cur ++ [d]) (<[n := cur ++ [d]]> m)).
    + rewrite set_phase_definitions_twice. apply set_phase_definitions_ext.
      by rewrite insert_insert_eq, insert_insert_eq.
    + rewrite phase_definitions_set. unfold getitem.
      rewrite (lookup_total_correct _ _ _ Hp). apply lookup_insert_eq.
    + apply lookup_insert_eq.
Qed.

Lemma ensure_pipeline_lookup (p : string) (app : Application) :
  phase_definitions (ensure_pipeline p app) !! p
  = Some (default ∅ (phase_definitions app !! p)).
Proof.
  unfold ensure_pipeline.
  destruct (decide (is_Some (phase_definitions app !! p))) as [[m Hm]|Hn].
  - by rewrite Hm.
  - rewrite phase_definitions_set, lookup_insert_eq.
    destruct (phase_definitions app !! p) eqn:E; [|done].
    exfalso. apply Hn. by eexists.
Qed.

Lemma ensure_pipeline_set (p : string) (app : Application) :
  ensure_pipeline p app
  = set_phase_definitions (λ pd, <[p := default ∅ (pd !! p)]> pd) app.
Proof.
  unfold ensure_pipeline.
  destruct (decide (is_Some (phase_definitions app !! p))) as [[m Hm]|Hn].
  - symmetry. apply set_phase_definitions_same. rewrite Hm; simpl. by apply insert_id.
  - apply set_phase_definitions_ext.
    destruct (phase_definitions app !! p) eqn:E; [|done].
    exfalso. apply Hn. by eexists.
Qed.

Lemma ensure_phase_set (p n : string) (m : gmap string (list string)) (app : Application) :
  phase_definitions app !! p = Some m →
  ensure_phase p n app
  = set_phase_definitions (λ pd, <[p := <[n := default [] (m !! n)]> m]> pd) app.
Proof.
  intros Hm. unfold ensure_phase, getitem. rewrite (lookup_total_correct _ _ _ Hm).
  destruct (decide (is_Some (m !! n))) as [[cur Hc]|Hn].
  - symmetry. apply set_phase_definitions_same. rewrite Hc; simpl.
    rewrite (insert_id m n cur Hc). by apply insert_id.
  - apply set_phase_definitions_ext. rewrite (lookup_total_correct _ _ _ Hm).
    destruct (m !! n) eqn:E; [|done].
    exfalso. apply Hn. by eexists.
Qed.

Lemma register_phase_ok (name p : string) (deps : list string) (app : Application) :
  p ∈ _pipelines app →
  _execute_register_phase name (Some p) (PyList deps) app
  = Done (set_phase_definitions (pd_register p name deps) app).
Proof.
  intros Hp. unfold _execute_register_phase, recognized.
  rewrite decide_True by done. simpl. f_equal.
  pose proof (ensure_pipeline_lookup p app) as H1.
  rewrite (ensure_phase_set p name _ _ H1).
  set (m := default ∅ (phase_definitions app !! p)) in *.
  rewrite (register_phase_loop p name deps (default [] (m !! name))
             (<[name := default [] (m !! name)]> m)).
  - rewrite ensure_pipeline_set, !set_phase_definitions_twice.
    apply set_phase_definitions_ext. unfold pd_register. fold m.
    by rewrite !insert_insert_eq.
  - rewrite phase_definitions_set. apply lookup_insert_eq.
  - apply lookup_insert_eq.
Qed.

Lemma phase_deps_register (p n p' n' : string) (deps : list string) (app : Application) :
  phase_deps (set_phase_definitions (pd_register p n deps) app) p' n'
  = if decide (p' = p ∧ n' = n) then merge_deps (phase_deps app p n) deps
    else phase_deps app p' n'.
Proof.
  unfold phase_deps. rewrite phase_definitions_set. unfold pd_register.
  destruct (decide (p' = p)) as [->|Hp].
  - rewrite lookup_insert_eq. simpl.
    destruct (decide (n' = n)) as [->|Hn].
    + rewrite lookup_insert_eq, decide_True by done. simpl.
      by destruct (phase_definitions app !! p).
    + rewrite lookup_insert_ne, decide_False by naive_solver.
      destruct (phase_definitions app !! p); simpl; [done|by rewrite lookup_empty].
  - rewrite lookup_insert_ne, decide_False by naive_solver. done.
Qed.

Lemma phase_deps_lookup_register (p n : string) (deps : list string) (app : Application) :
  phase_definitions (set_phase_definitions (pd_register p n deps) app) !! p
    ≫= (λ m, m !! n)
  = Some (merge_deps (phase_deps app p n) deps).
Proof.
  rewrite phase_definitions_set. unfold pd_register, phase_deps.
  rewrite lookup_insert_eq. simpl. rewrite lookup_insert_eq.
  by destruct (phase_definitions app !! p).
Qed.

Lemma run_register_phase_calls (P N : string) (Ds : list (list string)) (app : Application) :
  P ∈ _pipelines app →
  ∃ app', run_steps (register_phase_calls N P Ds) app = Done app'
    ∧ _pipelines app' = _pipelines app
    ∧ phase_deps app' P N = merge_deps (phase_deps app P N) (concat Ds)
    ∧ (Ds ≠ [] →
       phase_definitions app' !! P ≫= (λ m, m !! N) = Some (phase_deps app' P N)).
Proof.
  revert app; induction Ds as [|D Ds IH]; intros app HP; simpl.
  - exists app. by repeat split.
  - rewrite register_phase_ok by done.
    set (app1 := set_phase_definitions (pd_register P N D) app).
    destruct (IH app1) as (app' & Hrun & Hpl & Hdeps & Hlook); [done|].
    exists app'. split; [done|]. split; [done|]. split.
    + rewrite Hdeps. unfold app1. rewrite phase_deps_register, decide_True by done.
      by rewrite merge_deps_app.
    + intros _. destruct Ds as [|D' Ds]; [|by apply Hlook].
      simpl in Hrun. injection Hrun as <-. unfold app1.
      rewrite phase_deps_lookup_register. f_equal.
      by rewrite phase_deps_register, decide_True.
Qed.

(** Every execution of [register_phase] either raises and leaves the
    instance alone, or is the successful path on a recognised pipeline
    and a list. *)
Lemma register_phase_cases (name : string) (pipeline : option string) (depends_on : pyval)
    (app : Application) :
  (∃ e, _execute_register_phase name pipeline depends_on app = Raised e app)
  ∨ (∃ p deps, pipeline = Some p ∧ depends_on = PyList deps ∧ p ∈ _pipelines app
       ∧ _execute_register_phase name pipeline depends_on app
         = Done (set_phase_definitions (pd_register p name deps) app)).
Proof.
  destruct pipeline as [p|]; [|left; by eexists].
  destruct (decide (p ∈ _pipelines app)) as [Hp|Hp].
  - destruct depends_on as [| | |deps|];
      try (left; unfold _execute_register_phase, recognized;
           rewrite decide_True by done; by eexists).
    right. exists p, deps. by rewrite register_phase_ok.
  - left. unfold _execute_register_phase, recognized. rewrite decide_False by done.
    by eexists.
Qed.

(** ** Claims about [register_phase] *)

(** C1. Repeated executions of [register_phase(N, pipeline=P, depends_on=D)]
    against one instance all succeed when [P] is a recognised pipeline,
    and the list kept under [phase_definitions[P][N]] only grows at its
    end: the list before the calls, and the list after any first part of
    the calls, is a prefix of the final list; the final list holds exactly
    the old dependencies and those of the calls; if the old list had no
    duplicate the final one has none and equals the first occurrences, in
    order, of the old list followed by the [depends_on] lists.  A single
    execution with any arguments, failing or not, keeps every list of the
    graph as a prefix of the new one and keeps the graph free of
    duplicates.  In particular registering [p] in [X] with [[a]] and then
    with [[a, b]] leaves [phase_definitions[X][p] == [a, b]]. *)
Theorem register_phase_accumulates :
  (∀ (P N : string) (Ds : list (list string)) (app : Application),
     P ∈ _pipelines app →
     ∃ app', run_steps (register_phase_calls N P Ds) app = Done app' ∧
       let old := phase_deps app P N in
       let new := phase_deps app' P N in
       old `prefix_of` new
       ∧ (∀ Ds1 Ds2, Ds = Ds1 ++ Ds2 →
            ∃ mid, run_steps (register_phase_calls N P Ds1) app = Done mid
                   ∧ phase_deps mid P N `prefix_of` new)
       ∧ (∀ d, d ∈ new ↔ d ∈ old ∨ ∃ D, D ∈ Ds ∧ d ∈ D)
       ∧ (NoDup old → NoDup new ∧ new = dedupe (old ++ concat Ds))
       ∧ (Ds ≠ [] → phase_definitions app' !! P ≫= (λ m, m !! N) = Some new))
  ∧ (∀ (name : string) (pipeline : option string) (depends_on : pyval)
       (app : Application),
       let app' := final_state (_execute_register_phase name pipeline depends_on app) in
       (∀ p n, phase_deps app p n `prefix_of` phase_deps app' p n)
       ∧ ((∀ p n, NoDup (phase_deps app p n)) → ∀ p n, NoDup (phase_deps app' p n)))
  ∧ (∀ app : Application,
       "X" ∈ _pipelines app → phase_deps app "X" "p" = [] →
       ∃ app', run_steps (register_phase_calls "p" "X" [["a"]; ["a"; "b"]]) app = Done app'
         ∧ phase_definitions app' !! "X" ≫= (λ m, m !! "p") = Some ["a"; "b"]).
Proof.
  split; [|split].
  - intros P N Ds app HP.
    destruct (run_register_phase_calls P N Ds app HP) as (app' & Hrun & _ & Hdeps & Hlook).
    exists app'. split; [done|]. simpl. rewrite Hdeps.
    split; [apply merge_deps_prefix|]. split; [|split; [|split]].
    + intros Ds1 Ds2 ->.
      destruct (run_register_phase_calls P N Ds1 app HP) as (mid & Hmid & _ & Hd1 & _).
      exists mid. split; [done|]. rewrite Hd1, concat_app, merge_deps_app.
      apply merge_deps_prefix.
    + intros d. rewrite elem_of_merge_deps. split.
      * intros [?|(D & HD & Hd)%elem_of_concat]; [by left|right; eauto].
      * intros [?|(D & HD & Hd)]; [by left|right]. apply elem_of_concat. eauto.
    + intros Hnd. split; [by apply merge_deps_NoDup|by apply merge_deps_first_seen].
    + intros Hne. rewrite <- Hdeps. by apply Hlook.
  - intros name pipeline depends_on app.
    destruct (register_phase_cases name pipeline depends_on app)
      as [[e ->]|(p & deps & -> & -> & Hp & ->)]; simpl; [done|].
    split.
    + intros p' n'. rewrite phase_deps_register.
      case_decide as Heq; [|done]. destruct Heq as [-> ->]. apply merge_deps_prefix.
    + intros Hnd p' n'. rewrite phase_deps_register.
      case_decide as Heq; [|done]. by apply merge_deps_NoDup.
  - intros app HX Hold.
    destruct (run_register_phase_calls "X" "p" [["a"]; ["a"; "b"]] app HX)
      as (app' & Hrun & _ & Hdeps & Hlook).
    exists app'. split; [done|]. rewrite Hlook by done. f_equal.
    rewrite Hdeps, Hold. reflexivity.
Qed.

(** *** Text of the error messages *)

Lemma append_cons (c : ascii) (s t : string) : String c s +:+ t = String c (s +:+ t).
Proof. reflexivity. Qed.

Lemma append_nil_l (s : string) : EmptyString +:+ s = s.
Proof. reflexivity. Qed.

Lemma append_nil_r (s : string) : s +:+ EmptyString = s.
Proof. induction s as [|c s IH]; [done|]. by rewrite append_cons, IH. Qed.

Lemma append_assoc (s t u : string) : (s +:+ t) +:+ u = s +:+ (t +:+ u).
Proof. induction s as [|c s IH]; [done|]. by rewrite !append_cons, IH. Qed.

Lemma occurs_in_self (s : string) : occurs_in s s.
Proof. exists EmptyString, EmptyString. by rewrite append_nil_l, append_nil_r. Qed.

Lemma occurs_in_append_l (piece s t : string) : occurs_in piece s → occurs_in piece (s +:+ t).
Proof.
  intros (pre & post & ->). exists pre, (post +:+ t). by rewrite !append_assoc.
Qed.

Lemma occurs_in_append_r (piece s t : string) : occurs_in piece t → occurs_in piece (s +:+ t).
Proof.
  intros (pre & post & ->). exists (s +:+ pre), post. by rewrite !append_assoc.
Qed.

Lemma occurs_in_join (sep x : string) (l : list string) :
  x ∈ l → occurs_in x (join sep l).
Proof.
  induction l as [|y l IH]; [by intros ?%elem_of_nil|].
  intros [->|Hx]%elem_of_cons; simpl.
  - destruct l; [apply occurs_in_self|apply occurs_in_append_l, occurs_in_self].
  - destruct l as [|z l]; [by apply elem_of_nil in Hx|].
    by apply occurs_in_append_r, occurs_in_append_r, IH.
Qed.

#[local] Hint Resolve occurs_in_self occurs_in_append_l occurs_in_append_r : occurs.

(** C6. Whatever the phase name, the [depends_on] argument and the state,
    a [register_phase] whose pipeline is not among the instance's
    recognised pipelines raises a definition error and leaves the
    instance as it was; the message holds the directive's name, the
    rejected pipeline value and the list of valid pipelines, each of which
    it shows. *)
Theorem register_phase_unknown_pipeline
    (name : string) (pipeline : option string) (depends_on : pyval) (app : Application) :
  (∀ p, pipeline = Some p → p ∉ _pipelines app) →
  ∃ msg,
    _execute_register_phase name pipeline depends_on app = Raised (DirectiveError msg) app
    ∧ msg = "Directive register_phase was given an invalid pipeline "
            +:+ char_str dquote +:+ str_opt pipeline +:+ char_str dquote
            +:+ char_str (Ascii.ascii_of_nat 10)
            +:+ "Available pipelines are:  " +:+ repr_list (_pipelines app)
    ∧ occurs_in "register_phase" msg
    ∧ occurs_in (str_opt pipeline) msg
    ∧ occurs_in (repr_list (_pipelines app)) msg
    ∧ (∀ q, q ∈ _pipelines app → occurs_in (repr_str q) msg).
Proof.
  intros Hbad. eexists. split; [|split; [reflexivity|]].
  - unfold _execute_register_phase, recognized.
    destruct pipeline as [p|]; [|done].
    rewrite decide_False; [done|]. by apply Hbad.
  - split; [|split; [|split]].
    + exists "Directive ". eexists. reflexivity.
    + auto 10 with occurs.
    + auto 10 with occurs.
    + intros q Hq. do 6 apply occurs_in_append_r. unfold repr_list.
      apply occurs_in_append_r, occurs_in_append_l, occurs_in_join.
      apply list_elem_of_fmap. eauto.
Qed.

(** C7 as stated fails: a tuple is a sequence, yet with a recognised
    pipeline the closure raises on it. *)
Lemma register_phase_tuple_rejected :
  let app := mkApplication "app" ["setup"] ∅ ∅ ∅ ∅ in
  "setup" ∈ _pipelines app ∧
  ¬ (raises (_execute_register_phase "p" (Some "setup") (PyTuple ["a"]) app)
     ↔ ¬ is_sequence (PyTuple ["a"])).
Proof.
  simpl. split; [by left|]. intros [Hr _]. apply Hr; [|exact I].
  vm_compute. exact I.
Qed.

(** C7, amended. With a recognised pipeline [register_phase] raises a
    definition error exactly when [depends_on] is not a list (a tuple is
    rejected like any other non-list); the instance is then unchanged and
    the message names the directive and the application.  On a list the
    closure succeeds. *)
Theorem register_phase_depends_on_list
    (name p : string) (depends_on : pyval) (app : Application) :
  p ∈ _pipelines app →
  (isinstance_list depends_on = false →
     ∃ msg,
       _execute_register_phase name (Some p) depends_on app
       = Raised (DirectiveError msg) app
       ∧ msg = "Directive register_phase was given an invalid type for "
               +:+ "the depends_on attribute in application " +:+ app_name app
       ∧ occurs_in "register_phase" msg
       ∧ occurs_in (app_name app) msg)
  ∧ (isinstance_list depends_on = true →
       ∃ app', _execute_register_phase name (Some p) depends_on app = Done app')
  ∧ (raises (_execute_register_phase name (Some p) depends_on app)
     ↔ isinstance_list depends_on = false).
Proof.
  intros Hp.
  assert (Hrec : recognized (Some p) app = Some p).
  { unfold recognized. by rewrite decide_True. }
  unfold _execute_register_phase. rewrite Hrec.
  destruct (isinstance_list depends_on) eqn:Hl; simpl.
  - split; [done|]. split; [eauto|]. split; [intros []|done].
  - split; [|split; [done|done]].
    intros _. eexists. split; [reflexivity|]. split; [reflexivity|].
    split; [|auto with occurs].
    exists "Directive ". eexists. reflexivity.
Qed.

(** C10. Whenever [register_phase] raises, the instance is exactly what
    it was before the call: both checks come before the first write. *)
Theorem register_phase_atomic_on_failure
    (name : string) (pipeline : option string) (depends_on : pyval)
    (app app' : Application) (e : exn) :
  _execute_register_phase name pipeline depends_on app = Raised e app' →
  app' = app ∧ phase_definitions app' = phase_definitions app.
Proof.
  unfold _execute_register_phase.
  destruct (recognized pipeline app) as [p|].
  - destruct (negb (isinstance_list depends_on)); [|discriminate].
    intros [= _ <-]. done.
  - intros [= _ <-]. done.
Qed.

(** ** Claims about [workload] *)

Lemma set_workloads_twice f g app :
  set_workloads g (set_workloads f app) = set_workloads (λ w, g (f w)) app.
Proof. reflexivity. Qed.

Lemma set_workloads_ext f g app :
  f (workloads app) = g (workloads app) → set_workloads f app = set_workloads g app.
Proof. unfold set_workloads; intros ->; reflexivity. Qed.

Lemma workload_record_built (e i t : list string) :
  <["tags" := t]> (<["inputs" := i]> (<["executables" := e]>
     ({[ "executables" := []; "inputs" := []; "tags" := [] ]} : gmap string (list string))))
  = {[ "executables" := e; "inputs" := i; "tags" := t ]}.
Proof. reflexivity. Qed.

(** The closure of [workload] in one equation: the empty record is
    written first; the record of this call replaces it only if the
    executables resolve. *)
Lemma workload_outcome rd md (name : string) (executables executable input inputs : pyval)
    (tags : option (list string)) (app : Application) :
  _execute_workload rd md name executables executable input inputs tags app
  = match rd executable executables "executable" "executables" "workload" with
    | Err e =>
      Raised e (set_workloads
                  (λ w, <[name := {[ "executables" := []; "inputs" := []; "tags" := [] ]}]> w)
                  app)
    | Ok all_execs =>
      Done (set_workloads
              (λ w, <[name := {[ "executables" := all_execs;
                                 "inputs" := md input inputs;
                                 "tags" := default [] tags ]}]> w) app)
    end.
Proof.
  unfold _execute_workload.
  destruct (rd executable executables _ _ _) as [all_execs|e]; [|done].
  destruct tags as [[|t ts]|]; simpl; f_equal;
    rewrite !set_workloads_twice; apply set_workloads_ext; unfold getitem;
    rewrite ?lookup_total_insert_eq, ?insert_insert_eq;
    rewrite ?lookup_total_insert_eq, ?insert_insert_eq;
    rewrite ?lookup_total_insert_eq, ?insert_insert_eq; reflexivity.
Qed.

(** C9. [workload] is not atomic on failure: whatever the two helpers
    are, the closure raises exactly when the check of
    [executable]/[executables] does, with the same error, and the
    instance it leaves then has the empty record under [name], whatever
    was stored there before; the other workloads are untouched. *)
Theorem workload_failure_leaves_empty_record
    (rd : pyval → pyval → string → string → string → result (list string))
    (md : pyval → pyval → list string)
    (name : string) (executables executable input inputs : pyval)
    (tags : option (list string)) (app app' : Application) (e : exn) :
  (rd executable executables "executable" "executables" "workload" = Err e →
     ∃ app1,
       _execute_workload rd md name executables executable input inputs tags app
       = Raised e app1)
  ∧ (_execute_workload rd md name executables executable input inputs tags app
     = Raised e app' →
     rd executable executables "executable" "executables" "workload" = Err e
     ∧ workloads app' !! name
       = Some {[ "executables" := []; "inputs" := []; "tags" := [] ]}
     ∧ (∀ other, other ≠ name → workloads app' !! other = workloads app !! other)).
Proof.
  rewrite workload_outcome.
  destruct (rd executable executables _ _ _) as [all_execs|e0].
  - split; discriminate.
  - split; [intros [= ->]; by eexists|].
    intros [= -> <-]. split; [done|]. split.
    + apply lookup_insert_eq.
    + intros other Hne. simpl. by apply lookup_insert_ne.
Qed.

(** C4. A [workload] closure that succeeds leaves under [name] a record
    made of this call's arguments alone, whatever the instance held
    before, for any pair of helpers.  With the module's helpers,
    declaring [w] with executables [e1, e2] and later with executable
    [e3] ends with the executables [[e3]], and with the very record the
    second call alone would have written. *)
Theorem workload_overwrites :
  (∀ rd md (name : string) (executables executable input inputs : pyval)
     (tags : option (list string)) (app app' : Application),
     _execute_workload rd md name executables executable input inputs tags app = Done app' →
     ∃ all_execs,
       rd executable executables "executable" "executables" "workload" = Ok all_execs
       ∧ workloads app' !! name
         = Some {[ "executables" := all_execs;
                   "inputs" := md input inputs;
                   "tags" := default [] tags ]})
  ∧ (∀ app : Application,
       ∃ app',
         run_steps [workload_step "w" (PyList ["e1"; "e2"]) PyNone PyNone PyNone None;
                    workload_step "w" PyNone (PyStr "e3") PyNone PyNone None] app
         = Done app'
         ∧ workloads app' !! "w"
           = Some {[ "executables" := ["e3"]; "inputs" := []; "tags" := [] ]}
         ∧ (∃ app2, workload_step "w" PyNone (PyStr "e3") PyNone PyNone None app = Done app2
                    ∧ workloads app' = workloads app2)).
Proof.
  split.
  - intros rd md name exs ex inp inps tags app app'. rewrite workload_outcome.
    destruct (rd ex exs _ _ _) as [all_execs|e]; [|discriminate].
    intros [= <-]. exists all_execs. split; [done|]. apply lookup_insert_eq.
  - intros app.
    assert (H1 : workload_step "w" (PyList ["e1"; "e2"]) PyNone PyNone PyNone None app
                 = Done (set_workloads
                           (λ w, <["w" := {[ "executables" := ["e1"; "e2"];
                                             "inputs" := []; "tags" := [] ]}]> w) app)).
    { unfold workload_step. rewrite workload_outcome. reflexivity. }
    assert (H2 : ∀ a, workload_step "w" PyNone (PyStr "e3") PyNone PyNone None a
                 = Done (set_workloads
                           (λ w, <["w" := {[ "executables" := ["e3"];
                                             "inputs" := []; "tags" := [] ]}]> w) a)).
    { intros a. unfold workload_step. rewrite workload_outcome. reflexivity. }
    cbn [run_steps]. rewrite H1, !H2.
    eexists. split; [reflexivity|]. split; [apply lookup_insert_eq|].
    eexists. split; [reflexivity|]. simpl. by rewrite insert_insert_eq.
Qed.


(** ** Claims about [executable] *)

(** C3. The closure of [executable] never passes [variables] on: the
    instance it produces is the same whatever mapping was supplied, and
    for [executable(e, template, variables={x: 1})] the stored record
    holds name, template, use_mpi, redirect and output_capture verbatim
    but an empty variables mapping. *)
Theorem executable_ignores_variables :
  (∀ (name : string) (template : pyval) (use_mpi : bool) (v1 v2 : gmap string string)
     (redirect : string) (output_capture : OUTPUT_CAPTURE) (app : Application),
     _execute_executable name template use_mpi v1 redirect output_capture app
     = _execute_executable name template use_mpi v2 redirect output_capture app)
  ∧ (∀ app : Application,
       let variables : gmap string string := {[ "x" := "1" ]} in
       ∃ app' exe,
         _execute_executable "e" (PyStr "echo {x}") false variables "{log_file}" DEFAULT app
         = Done app'
         ∧ executables app' !! "e" = Some exe
         ∧ exe_name exe = "e" ∧ exe_template exe = PyStr "echo {x}"
         ∧ exe_use_mpi exe = false ∧ exe_redirect exe = "{log_file}"
         ∧ exe_output_capture exe = DEFAULT
         ∧ exe_variables exe = ∅
         ∧ exe_variables exe ≠ variables).
Proof.
  split; [reflexivity|].
  intros app variables. eexists. eexists. split; [reflexivity|].
  split; [apply lookup_insert_eq|]. simpl. repeat (split; [reflexivity|]).
  intros Hv. apply (f_equal (λ m : gmap string string, m !! "x")) in Hv.
  unfold variables in Hv. by rewrite lookup_empty, lookup_singleton_eq in Hv.
Qed.

(** ** Claims about [workload_variable] *)

Lemma workload_variables_set f app :
  workload_variables (set_workload_variables f app) = f (workload_variables app).
Proof. reflexivity. Qed.

Lemma define_workload_variable_spec (name : string) (dflt : pyval) (description : string)
    (values : pyval) (expandable : bool) (app : Application) (wl_name : string) :
  workload_variables
    (define_workload_variable name dflt description values expandable app wl_name)
  = <[wl_name := <[name := variable_record dflt description values expandable]>
                   (default ∅ (workload_variables app !! wl_name))]>
      (workload_variables app).
Proof.
  unfold define_workload_variable, variable_record.
  set (entry := ({[ "default" := dflt; "description" := PyStr description;
                    "expandable" := PyBool expandable ]} : gmap string pyval)).
  set (app1 := if decide (is_Some (workload_variables app !! wl_name)) then app
               else set_workload_variables (λ wv, <[wl_name := ∅]> wv) app).
  assert (H1 : workload_variables app1
               = <[wl_name := default ∅ (workload_variables app !! wl_name)]>
                   (workload_variables app)).
  { unfold app1. destruct (decide _) as [[vars Hv]|Hn].
    - rewrite Hv. simpl. symmetry. by apply insert_id.
    - rewrite workload_variables_set.
      destruct (workload_variables app !! wl_name) eqn:E; [|done].
      exfalso. apply Hn. by eexists. }
  destruct (truthy values);
    rewrite ?workload_variables_set, H1; unfold getitem;
    rewrite ?lookup_total_insert_eq, ?insert_insert_eq;
    rewrite ?lookup_total_insert_eq, ?insert_insert_eq; reflexivity.
Qed.

Lemma workload_variable_loop (name : string) (dflt : pyval) (description : string)
    (values : pyval) (expandable : bool) (ws : list string) (app : Application) (w : string) :
  workload_variables
    (foldl (define_workload_variable name dflt description values expandable) app ws) !! w
  = if decide (w ∈ ws)
    then Some (<[name := variable_record dflt description values expandable]>
                 (default ∅ (workload_variables app !! w)))
    else workload_variables app !! w.
Proof.
  revert app; induction ws as [|w0 ws IH]; intros app; cbn [foldl].
  - rewrite decide_False; [done|apply not_elem_of_nil].
  - rewrite IH, define_workload_variable_spec.
    destruct (decide (w = w0)) as [->|Hne].
    + rewrite lookup_insert_eq, (decide_True (P := w0 ∈ w0 :: ws)) by (by left). simpl.
      destruct (decide (w0 ∈ ws)); [by rewrite insert_insert_eq|done].
    + rewrite lookup_insert_ne by done.
      destruct (decide (w ∈ ws)) as [Hin|Hnin].
      * rewrite decide_True; [done|by right].
      * rewrite decide_False; [done|]. by intros [?|?]%elem_of_cons.
Qed.

(** C8 as stated fails on the [values] key: an empty list is a supplied
    argument, and the entry written has no [values] key. *)
Lemma workload_variable_empty_values_dropped :
  let app := mkApplication "app" [] ∅ ∅ ∅ ∅ in
  ∃ app' entry,
    workload_variable_step "v" (PyStr "1") "d" (PyList []) PyNone (PyList ["w1"; "w2"]) true app
    = Done app'
    ∧ variable_entry app' "w1" "v" = Some entry
    ∧ ¬ (is_Some (entry !! "values") ↔ supplied (PyList [])).
Proof.
  simpl. eexists. eexists. split; [reflexivity|]. split; [reflexivity|].
  intros [_ Hs]. destruct Hs as [x Hx]; [done|]. vm_compute in Hx. discriminate.
Qed.

(** C8, amended. Whatever helper resolves the workload names, when it
    returns the names [ws] the closure of [workload_variable] succeeds
    and, for each name in [ws], leaves under
    [workload_variables[w][name]] the same entry: [default],
    [description] and [expandable] as given, and a [values] key exactly
    when the [values] argument is truthy (supplied and not empty), then
    holding the argument.  The other variables of those workloads and the
    other workloads are untouched.  With the module's helper,
    [workload_variable(v, default=1, description=d, workloads=[w1, w2])]
    writes the same three-key entry under both workloads. *)
Theorem workload_variable_defines :
  (∀ (rd : pyval → pyval → string → string → string → result (list string))
     (name : string) (dflt : pyval) (description : string)
     (values workload workloads : pyval) (expandable : bool)
     (app : Application) (ws : list string),
     rd workload workloads "workload" "workloads" "workload_variable" = Ok ws →
     ∃ app',
       _execute_workload_variable rd name dflt description values workload workloads
         expandable app = Done app'
       ∧ (∀ w, w ∈ ws →
            variable_entry app' w name
            = Some (variable_record dflt description values expandable)
            ∧ (∀ other, other ≠ name →
                 variable_entry app' w other = variable_entry app w other))
       ∧ (∀ w, w ∉ ws → workload_variables app' !! w = workload_variables app !! w)
       ∧ let entry := variable_record dflt description values expandable in
         entry !! "default" = Some dflt
         ∧ entry !! "description" = Some (PyStr description)
         ∧ entry !! "expandable" = Some (PyBool expandable)
         ∧ (is_Some (entry !! "values") ↔ truthy values = true)
         ∧ (truthy values = true → entry !! "values" = Some values))
  ∧ (∀ app : Application,
       ∃ app',
         workload_variable_step "v" (PyStr "1") "d" PyNone PyNone (PyList ["w1"; "w2"]) true app
         = Done app'
         ∧ variable_entry app' "w1" "v"
           = Some {[ "default" := PyStr "1"; "description" := PyStr "d";
                     "expandable" := PyBool true ]}
         ∧ variable_entry app' "w2" "v" = variable_entry app' "w1" "v").
Proof.
  split.
  - intros rd name dflt description values workload workloads expandable app ws Hrd.
    unfold _execute_workload_variable. rewrite Hrd. eexists. split; [reflexivity|].
    split; [|split].
    + intros w Hw. unfold variable_entry.
      rewrite workload_variable_loop, decide_True by done. simpl.
      split; [apply lookup_insert_eq|].
      intros other Hne. rewrite lookup_insert_ne by done.
      destruct (workload_variables app !! w); [done|apply lookup_empty].
    + intros w Hw. by rewrite workload_variable_loop, decide_False.
    + unfold variable_record. destruct (truthy values); simpl.
      * repeat (split; [reflexivity|]). split; [|reflexivity].
        split; [done|]. intros _. by eexists.
      * repeat (split; [reflexivity|]). split; [|done].
        split; [|done]. intros [x Hx]. vm_compute in Hx. discriminate.
  - intros app. unfold workload_variable_step, _execute_workload_variable.
    assert (Hrd : language_helpers.require_definition PyNone (PyList ["w1"; "w2"])
                    "workload" "workloads" "workload_variable" = Ok ["w1"; "w2"])
      by reflexivity.
    rewrite Hrd. eexists. split; [reflexivity|]. unfold variable_entry.
    rewrite !workload_variable_loop.
    rewrite !decide_True by (rewrite !elem_of_cons; auto). simpl.
    rewrite !lookup_insert_eq. done.
Qed.

(** ** Claims about the merged step list *)

Section merged_steps.
Import language_base.

(** Induction over a type with the claim available for every base. *)
Lemma AppType_bases_ind (P : AppType → Prop) :
  (∀ bs ds, Forall P bs → P (mkType bs ds)) → ∀ t, P t.
Proof.
  intros Hstep. fix IH 1. intros [bs ds]. apply Hstep.
  induction bs as [|b bs IHbs]; constructor; [apply IH|exact IHbs].
Qed.

Lemma ancestor_inv (u t : AppType) :
  ancestor u t ↔ ∃ b, b ∈ bases t ∧ in_hierarchy u b.
Proof.
  split.
  - intros [u' v Hb | u' w v Ha Hb].
    + exists u'. split; [done|by left].
    + exists w. split; [done|by right].
  - intros (b & Hb & [->|Ha]); [by apply ancestor_base|by eapply ancestor_step].
Qed.

Lemma ancestor_trans (u v t : AppType) : ancestor u v → ancestor v t → ancestor u t.
Proof.
  intros Huv Hvt. induction Hvt as [v t Hb | v w t Hvw IH Hb].
  - by eapply ancestor_step.
  - eapply ancestor_step; [by apply IH|done].
Qed.

Lemma in_hierarchy_trans (u v t : AppType) :
  in_hierarchy u v → in_hierarchy v t → in_hierarchy u t.
Proof.
  intros [->|Huv] [->|Hvt]; [by left|by right|by right|].
  right. by eapply ancestor_trans.
Qed.

Lemma in_hierarchy_base (b t : AppType) : b ∈ bases t → in_hierarchy b t.
Proof. intros Hb. right. by apply ancestor_base. Qed.

Lemma merged_unfold (bs : list AppType) (ds : list BuilderStep) :
  merged (mkType bs ds) = dedupe_by step_id (concat (map merged bs) ++ ds).
Proof. reflexivity. Qed.

Lemma merged_NoDup (t : AppType) : NoDup (step_id <$> merged t).
Proof. destruct t as [bs ds]. rewrite merged_unfold. apply NoDup_dedupe_from. Qed.

Lemma key_dedupe_by (l : list BuilderStep) (k : nat) :
  k ∈ step_id <$> dedupe_by step_id l ↔ k ∈ step_id <$> l.
Proof.
  unfold dedupe_by. rewrite key_dedupe_from. split; [by intros [? _]|].
  intros ?. split; [done|apply not_elem_of_nil].
Qed.

Lemma elem_of_concat_merged (k : nat) (bs : list AppType) :
  k ∈ step_id <$> concat (map merged bs)
  ↔ ∃ b, b ∈ bs ∧ k ∈ step_id <$> merged b.
Proof.
  induction bs as [|b bs IH]; simpl.
  - split; [by intros ?%elem_of_nil|by intros (? & ?%elem_of_nil & _)].
  - rewrite fmap_app, elem_of_app, IH. split.
    + intros [?|(b' & ? & ?)]; [exists b; split; [by left|done]|].
      exists b'. split; [by right|done].
    + intros (b' & [->|?]%elem_of_cons & ?); [by left|right; eauto].
Qed.

(** Every step declared in the hierarchy of [t] is in the merged list. *)
Lemma merged_complete (t v : AppType) (s : BuilderStep) :
  in_hierarchy v t → s ∈ declared v → step_id s ∈ step_id <$> merged t.
Proof.
  revert v s. induction t as [bs ds IH] using AppType_bases_ind. intros v s Hv Hs.
  rewrite merged_unfold, key_dedupe_by, fmap_app, elem_of_app.
  destruct Hv as [->|(b & Hb & Hvb)%ancestor_inv].
  - right. by apply list_elem_of_fmap_2.
  - left. apply elem_of_concat_merged. exists b. split; [done|].
    rewrite Forall_forall in IH. by eapply IH.
Qed.

Lemma filter_ids_dedupe (ids seen : list nat) (l : list BuilderStep) :
  filter (λ x, step_id x ∈ ids) (dedupe_from step_id seen l)
  = dedupe_from step_id seen (filter (λ x, step_id x ∈ ids) l).
Proof.
  apply (filter_dedupe_from step_id (λ k, k ∈ ids) (Qdec := λ k, decide_rel (∈) k ids)).
Qed.

(** *** Ancestors first *)

Section order.
Variable T : AppType.
Hypothesis Hfresh : fresh_steps T.

Lemma preceded_from_tail (seen : list nat) (x : BuilderStep) (l : list BuilderStep) :
  preceded_from T seen (x :: l) → preceded_from T (step_id x :: seen) l.
Proof.
  intros H l1 y l2 u v s -> Hv Hu Hy Hs.
  destruct (H (x :: l1) y l2 u v s eq_refl Hv Hu Hy Hs) as [?|Hin].
  - left. by right.
  - simpl in Hin. apply elem_of_cons in Hin as [->|?]; [left; by left|by right].
Qed.

Lemma preceded_from_mono (seen seen' : list nat) (l : list BuilderStep) :
  (∀ k, k ∈ seen → k ∈ seen') → preceded_from T seen l → preceded_from T seen' l.
Proof.
  intros Hsub H l1 x l2 u v s Hl Hv Hu Hx Hs.
  destruct (H l1 x l2 u v s Hl Hv Hu Hx Hs); [left; auto|by right].
Qed.

Lemma preceded_from_dedupe (seen : list nat) (l : list BuilderStep) :
  preceded_from T seen l → preceded_from T seen (dedupe_from step_id seen l).
Proof.
  revert seen; induction l as [|x l IH]; intros seen H; simpl; [done|].
  pose proof (preceded_from_tail _ _ _ H) as Htail.
  destruct (decide (step_id x ∈ seen)) as [Hx|Hx].
  - apply IH. eapply preceded_from_mono; [|exact Htail].
    intros k [->|?]%elem_of_cons; done.
  - apply IH in Htail. intros l1 y l2 u v s Hl Hv Hu Hy Hs.
    destruct l1 as [|x' l1]; simpl in Hl; injection Hl as -> Hl.
    + apply (H [] y l u v s eq_refl Hv Hu Hy Hs).
    + destruct (Htail l1 y l2 u v s Hl Hv Hu Hy Hs) as [[->|?]%elem_of_cons|?].
      * right. by left.
      * by left.
      * right. by right.
Qed.

Lemma preceded_from_app (seen : list nat) (l k : list BuilderStep) :
  preceded_from T seen l → preceded_from T (seen ++ (step_id <$> l)) k →
  preceded_from T seen (l ++ k).
Proof.
  revert seen; induction l as [|x l IH]; intros seen Hl Hk; simpl.
  - by rewrite app_nil_r in Hk.
  - intros l1 y l2 u v s Heq Hv Hu Hy Hs.
    destruct l1 as [|x' l1]; simpl in Heq; injection Heq as -> Heq.
    + apply (Hl [] y l u v s eq_refl Hv Hu Hy Hs).
    + assert (Hrest : preceded_from T (step_id x' :: seen) (l ++ k)).
      { apply IH; [by apply preceded_from_tail|].
        eapply preceded_from_mono; [|exact Hk]. intros n. simpl.
        rewrite !elem_of_app, !elem_of_cons, elem_of_app. tauto. }
      destruct (Hrest l1 y l2 u v s Heq Hv Hu Hy Hs) as [[->|?]%elem_of_cons|?].
      * right. by left.
      * by left.
      * right. by right.
Qed.

Lemma preceded_from_concat (seen : list nat) (ls : list (list BuilderStep)) :
  Forall (preceded_from T []) ls → preceded_from T seen (concat ls).
Proof.
  revert seen; induction ls as [|l ls IH]; intros seen Hls; simpl.
  - intros [|? ?] ? ? ? ? ? Heq; discriminate Heq.
  - apply Forall_cons in Hls as [Hl Hls]. apply preceded_from_app; [|by apply IH].
    eapply preceded_from_mono; [|exact Hl]. by intros k ?%elem_of_nil.
Qed.

Lemma merged_preceded (t : AppType) : in_hierarchy t T → preceded_from T [] (merged t).
Proof.
  induction t as [bs ds IH] using AppType_bases_ind. intros Ht.
  rewrite merged_unfold. apply preceded_from_dedupe, preceded_from_app.
  - apply preceded_from_concat. rewrite Forall_forall in IH.
    apply Forall_forall. intros l (b & -> & Hb)%list_elem_of_fmap.
    apply IH; [done|]. eapply in_hierarchy_trans; [|exact Ht].
    by apply in_hierarchy_base.
  - intros l1 x l2 u v s Hds Hv Hu Hx Hs. left. simpl.
    assert (v = mkType bs ds) as ->.
    { destruct Hfresh as [_ Huniq]. apply (Huniq v (mkType bs ds) x x); try done.
      simpl. rewrite Hds, elem_of_app, elem_of_cons. auto. }
    apply ancestor_inv in Hu as (b & Hb & Hub).
    apply elem_of_concat_merged. exists b. split; [done|].
    by eapply merged_complete.
Qed.

(** *** Declaration order within a type *)

Variable V : AppType.
Hypothesis HV : in_hierarchy V T.

Lemma own_steps_filter (t : AppType) :
  in_hierarchy t T →
  let own := filter (λ x, step_id x ∈ step_id <$> declared V) (declared t) in
  (own = declared V ∨ own = []) ∧ (t = V → own = declared V).
Proof.
  intros Ht own.
  assert (Hself : filter (λ x, step_id x ∈ step_id <$> declared V) (declared V)
                  = declared V).
  { apply filter_all. intros x Hx. by apply list_elem_of_fmap_2. }
  split; [|by intros ->].
  destruct own as [|x rest] eqn:E; [by right|left].
  assert (Hx : x ∈ own) by (rewrite E; by left).
  apply list_elem_of_filter in Hx as [(y & Hid & Hy)%list_elem_of_fmap Hx].
  destruct Hfresh as [_ Huniq].
  assert (t = V) as -> by (by apply (Huniq t V x y)).
  by rewrite <- E.
Qed.

Lemma merged_filter (t : AppType) :
  in_hierarchy t T →
  let own := filter (λ x, step_id x ∈ step_id <$> declared V) (merged t) in
  (own = declared V ∨ own = []) ∧ (in_hierarchy V t → own = declared V).
Proof.
  induction t as [bs ds IH] using AppType_bases_ind. intros Ht. cbv zeta.
  rewrite merged_unfold. unfold dedupe_by at 1 2 3.
  rewrite filter_ids_dedupe.
  rewrite filter_app, filter_concat, map_map.
  set (F := filter (λ x, step_id x ∈ step_id <$> declared V)).
  set (blocks := map (λ b, F (merged b)) bs ++ [F ds]).
  assert (Hcat : concat (map (λ b, F (merged b)) bs) ++ F ds = concat blocks).
  { unfold blocks. rewrite concat_app. simpl. by rewrite app_nil_r. }
  rewrite Hcat. fold (dedupe_by step_id (concat blocks)).
  assert (HbT : ∀ b, b ∈ bs → in_hierarchy b T).
  { intros b Hb. eapply in_hierarchy_trans; [|exact Ht]. by apply in_hierarchy_base. }
  rewrite Forall_forall in IH.
  destruct (own_steps_filter (mkType bs ds) Ht) as [Hown1 Hown2].
  assert (Hblocks : Forall (λ b, b = declared V ∨ b = []) blocks).
  { unfold blocks. apply Forall_app. split.
    - apply Forall_forall. intros l (b & -> & Hb)%list_elem_of_fmap.
      apply (IH b Hb (HbT b Hb)).
    - by apply Forall_singleton. }
  destruct Hfresh as [Hnd _].
  destruct (dedupe_blocks step_id (declared V) blocks (Hnd V HV) Hblocks) as [H1 H2].
  split; [done|]. intros HVt. apply H2. unfold blocks. apply Exists_app.
  destruct HVt as [->|(b & Hb & HVb)%ancestor_inv].
  - right. apply Exists_cons. left. by apply Hown2.
  - left. apply Exists_exists. exists (F (merged b)). split.
    + apply list_elem_of_fmap. by exists b.
    + by apply (IH b Hb (HbT b Hb)).
Qed.

Lemma declared_sublist_merged : declared V `sublist_of` merged T.
Proof.
  destruct (merged_filter T) as [_ H]; [by left|].
  rewrite <- H by done. apply sublist_filter.
Qed.
End order.

(** A chain of three types whose steps are all distinct objects. *)
Lemma merged_chain (sa sb sc : list BuilderStep) :
  NoDup (step_id <$> sa ++ sb ++ sc) →
  merged (mkType [mkType [mkType [] sa] sb] sc) = sa ++ sb ++ sc.
Proof.
  intros Hnd.
  assert (Hd : ∀ l, NoDup (step_id <$> l) → dedupe_by step_id l = l).
  { intros l Hl. apply dedupe_from_NoDup; [done|]. intros k _. apply not_elem_of_nil. }
  rewrite !merged_unfold. simpl. rewrite !app_nil_r.
  rewrite !fmap_app in Hnd.
  apply NoDup_app in Hnd as (Ha & Hab & Hbc).
  rewrite (Hd sa) by done.
  rewrite (Hd (sa ++ sb)).
  - rewrite <- app_assoc. apply Hd. rewrite !fmap_app. apply NoDup_app. by repeat split.
  - rewrite fmap_app. apply NoDup_app. split; [done|]. split.
    + intros k Hk Hkb. apply (Hab k Hk). apply elem_of_app. by left.
    + by apply NoDup_app in Hbc as (? & _ & _).
Qed.

(** C2. In the merged list of any type every step object occurs at most
    once and every step declared in the hierarchy occurs.  When the
    steps of the hierarchy are distinct objects, one per directive
    call, each step comes after all steps of the ancestors of its
    declaring type, and the steps of each type keep their declaration
    order.  Two steps with equal category and closure but distinct
    identities are both kept.  For a chain of three types declaring [N]
    distinct steps each, the merged list is the three lists in order,
    [3 * N] entries. *)
Theorem merged_steps_ordered_once :
  (∀ t, NoDup (step_id <$> merged t))
  ∧ (∀ t v s, in_hierarchy v t → s ∈ declared v → step_id s ∈ step_id <$> merged t)
  ∧ (∀ t, fresh_steps t →
       ∀ u v s x l1 l2,
         in_hierarchy v t → ancestor u v → s ∈ declared u → x ∈ declared v →
         merged t = l1 ++ x :: l2 → step_id s ∈ step_id <$> l1)
  ∧ (∀ t, fresh_steps t → ∀ v, in_hierarchy v t → declared v `sublist_of` merged t)
  ∧ (∀ (i j : nat) (category : string) (closure : Application → outcome),
       i ≠ j →
       merged (mkType [] [mkStep i category closure; mkStep j category closure])
       = [mkStep i category closure; mkStep j category closure])
  ∧ (∀ (N : nat) (sa sb sc : list BuilderStep),
       length sa = N → length sb = N → length sc = N →
       NoDup (step_id <$> sa ++ sb ++ sc) →
       merged (mkType [mkType [mkType [] sa] sb] sc) = sa ++ sb ++ sc
       ∧ length (merged (mkType [mkType [mkType [] sa] sb] sc)) = 3 * N).
Proof.
  split; [apply merged_NoDup|]. split; [apply merged_complete|].
  split; [|split; [|split]].
  - intros t Hfresh u v s x l1 l2 Hv Hu Hs Hx Heq.
    destruct (merged_preceded t Hfresh t (or_introl eq_refl) l1 x l2 u v s Heq Hv Hu Hx Hs)
      as [?%elem_of_nil|?]; done.
  - intros t Hfresh v Hv. by apply declared_sublist_merged.
  - intros i j category closure Hij. rewrite merged_unfold. simpl.
    unfold dedupe_by. simpl. case_decide as Hin; [exfalso|done].
    apply list_elem_of_singleton in Hin. by apply Hij.
  - intros N sa sb sc Ha Hb Hc Hnd. rewrite merged_chain by done.
    split; [done|]. rewrite !length_app. lia.
Qed.
End merged_steps.

(** * Worked instances *)

Ltac in_list := repeat first [apply list_elem_of_here | apply list_elem_of_further].

Lemma register_phase_accumulates_witness :
  (∃ app', run_steps (register_phase_calls "p" "X" [["a"]; ["a"; "b"]]) registered_app
           = Done app'
     ∧ phase_definitions app' !! "X" ≫= (λ m, m !! "p") = Some ["a"; "b"])
  ∧ (∃ app', run_steps (register_phase_calls "p" "setup" [["b"; "a"]; ["c"; "b"]])
               registered_app = Done app'
       ∧ phase_deps app' "setup" "p" = ["a"; "b"; "c"]).
Proof.
  split.
  - apply (proj2 (proj2 register_phase_accumulates) registered_app).
    + unfold registered_app; simpl. in_list.
    + reflexivity.
  - destruct (proj1 register_phase_accumulates "setup" "p" [["b"; "a"]; ["c"; "b"]]
                registered_app) as (app' & Hrun & _ & _ & _ & Hfirst & _).
    + unfold registered_app; simpl. in_list.
    + exists app'. split; [exact Hrun|].
      destruct Hfirst as [_ ->]; [|reflexivity].
      apply NoDup_singleton.
Defined.

Lemma register_phase_unknown_pipeline_witness :
  ∃ msg,
    _execute_register_phase "p" (Some "bogus") (PyStr "x") registered_app
    = Raised (DirectiveError msg) registered_app
    ∧ occurs_in "bogus" msg
    ∧ occurs_in "['setup', 'X']" msg.
Proof.
  destruct (register_phase_unknown_pipeline "p" (Some "bogus") (PyStr "x") registered_app)
    as (msg & Hrun & _ & _ & Hname & Hlist & _).
  - intros p [= <-]. unfold registered_app; simpl.
    intros Hin. apply elem_of_cons in Hin as [Hin|Hin]; [discriminate|].
    apply list_elem_of_singleton in Hin. discriminate.
  - exists msg. split; [exact Hrun|]. split; [exact Hname|exact Hlist].
Defined.

Lemma register_phase_depends_on_list_witness :
  (∃ msg,
     _execute_register_phase "p" (Some "setup") (PyStr "not-a-list") registered_app
     = Raised (DirectiveError msg) registered_app
     ∧ occurs_in "babelstream" msg)
  ∧ (∃ app', _execute_register_phase "p" (Some "setup") (PyList ["b"]) registered_app
             = Done app').
Proof.
  assert (Hp : "setup" ∈ _pipelines registered_app) by (unfold registered_app; simpl; in_list).
  split.
  - destruct (proj1 (register_phase_depends_on_list "p" "setup" (PyStr "not-a-list")
                       registered_app Hp) eq_refl) as (msg & Hrun & _ & _ & Happ).
    exists msg. split; [exact Hrun|exact Happ].
  - exact (proj1 (proj2 (register_phase_depends_on_list "p" "setup" (PyList ["b"])
                           registered_app Hp)) eq_refl).
Defined.

Lemma register_phase_atomic_on_failure_witness :
  phase_definitions registered_app !! "setup" = Some {[ "p" := ["a"] ]}
  ∧ registered_app = registered_app
  ∧ phase_definitions registered_app = phase_definitions registered_app.
Proof.
  split; [reflexivity|].
  apply (register_phase_atomic_on_failure "p" (Some "setup") (PyTuple ["b"])
           registered_app registered_app
           (DirectiveError
              ("Directive register_phase was given an invalid type for "
               +:+ "the depends_on attribute in application babelstream"))).
  reflexivity.
Defined.

Lemma workload_failure_leaves_empty_record_witness :
  workloads loaded_app !! "w"
  = Some {[ "executables" := ["e1"; "e2"]; "inputs" := ["i"]; "tags" := ["t"] ]}
  ∧ ∃ e app',
      workload_step "w" PyNone PyNone PyNone PyNone None loaded_app = Raised e app'
      ∧ workloads app' !! "w" = Some {[ "executables" := []; "inputs" := []; "tags" := [] ]}.
Proof.
  split; [reflexivity|].
  eexists. eexists. split; [reflexivity|].
  eapply (proj2 (workload_failure_leaves_empty_record
                   language_helpers.require_definition language_helpers.merge_definitions
                   "w" PyNone PyNone PyNone PyNone None loaded_app _ _)).
  reflexivity.
Defined.

Lemma workload_overwrites_witness :
  ∃ app',
    workload_step "w" PyNone (PyStr "e3") PyNone PyNone None loaded_app = Done app'
    ∧ workloads app' !! "w"
      = Some {[ "executables" := ["e3"]; "inputs" := []; "tags" := [] ]}.
Proof.
  eexists. split; [reflexivity|].
  destruct (proj1 workload_overwrites
              language_helpers.require_definition language_helpers.merge_definitions
              "w" PyNone (PyStr "e3") PyNone PyNone None loaded_app _ eq_refl)
    as (all_execs & Hrd & Hw).
  injection Hrd as <-. exact Hw.
Defined.


Lemma workload_variable_defines_witness :
  ∃ app',
    workload_variable_step "v" (PyStr "1") "d" (PyList ["x"; "y"]) PyNone
      (PyList ["w1"; "w2"]) true loaded_app = Done app'
    ∧ variable_entry app' "w2" "v"
      = Some {[ "default" := PyStr "1"; "description" := PyStr "d";
                "expandable" := PyBool true; "values" := PyList ["x"; "y"] ]}.
Proof.
  destruct (proj1 workload_variable_defines language_helpers.require_definition
              "v" (PyStr "1") "d" (PyList ["x"; "y"]) PyNone (PyList ["w1"; "w2"]) true
              loaded_app ["w1"; "w2"] eq_refl) as (app' & Hrun & Hentry & _).
  exists app'. split; [exact Hrun|].
  destruct (Hentry "w2") as [-> _]; [in_list|reflexivity].
Defined.

Lemma in_hierarchy_type_D (v : language_base.AppType) :
  language_base.in_hierarchy v type_D → v ∈ [type_D; type_B; type_C; type_A].
Proof.
  assert (HA : ∀ u, language_base.in_hierarchy u type_A → u = type_A).
  { intros u [->|(b & Hb & _)%ancestor_inv]; [done|]. by apply elem_of_nil in Hb. }
  assert (HB : ∀ u, language_base.in_hierarchy u type_B → u = type_B ∨ u = type_A).
  { intros u [->|(b & Hb & Hu)%ancestor_inv]; [by left|]. right.
    apply list_elem_of_singleton in Hb as ->. by apply HA. }
  assert (HC : ∀ u, language_base.in_hierarchy u type_C → u = type_C ∨ u = type_A).
  { intros u [->|(b & Hb & Hu)%ancestor_inv]; [by left|]. right.
    apply list_elem_of_singleton in Hb as ->. by apply HA. }
  intros [->|(b & Hb & Hv)%ancestor_inv]; [in_list|].
  simpl in Hb. apply elem_of_cons in Hb as [->|Hb].
  - destruct (HB v Hv) as [-> | ->]; in_list.
  - apply list_elem_of_singleton in Hb as ->. destruct (HC v Hv) as [-> | ->]; in_list.
Qed.

Lemma fresh_steps_type_D : language_base.fresh_steps type_D.
Proof.
  split.
  - intros v Hv%in_hierarchy_type_D.
    repeat (apply elem_of_cons in Hv as [->|Hv]); [..|by apply elem_of_nil in Hv];
      simpl; repeat first [apply NoDup_nil_2 | apply NoDup_cons_2]; set_solver.
  - intros v w s s' Hv%in_hierarchy_type_D Hw%in_hierarchy_type_D Hs Hs' Hid.
    repeat (apply elem_of_cons in Hv as [->|Hv]); [..|by apply elem_of_nil in Hv];
      (repeat (apply elem_of_cons in Hw as [->|Hw]); [..|by apply elem_of_nil in Hw]);
      try reflexivity; exfalso; simpl in Hs, Hs';
      repeat (apply elem_of_cons in Hs as [->|Hs]); try (by apply elem_of_nil in Hs);
      repeat (apply elem_of_cons in Hs' as [->|Hs']); try (by apply elem_of_nil in Hs');
      discriminate Hid.
Qed.

Lemma merged_steps_ordered_once_witness :
  language_base.merged type_D = [step_a0; step_a1; step_b; step_c; step_d]
  ∧ language_base.declared type_A `sublist_of` language_base.merged type_D
  ∧ 0 ∈ language_base.step_id <$> [step_a0; step_a1; step_b]
  ∧ length (language_base.merged
              (language_base.mkType
                 [language_base.mkType [language_base.mkType [] [step_a0; step_a1]]
                    [step_b; step_c]] [step_d; step_e])) = 3 * 2.
Proof.
  destruct merged_steps_ordered_once as (_ & _ & Horder & Hdecl & _ & Hchain).
  split; [reflexivity|]. split; [|split].
  - apply (Hdecl type_D fresh_steps_type_D type_A). right.
    apply language_base.ancestor_step with type_B.
    + apply language_base.ancestor_base. simpl. in_list.
    + simpl. in_list.
  - apply (Horder type_D fresh_steps_type_D type_A type_C step_a0 step_c
             [step_a0; step_a1; step_b] [step_d]).
    + right. apply language_base.ancestor_base. simpl. in_list.
    + apply language_base.ancestor_base. simpl. in_list.
    + simpl. in_list.
    + simpl. in_list.
    + reflexivity.
  - apply (Hchain 2 [step_a0; step_a1] [step_b; step_c] [step_d; step_e]); try reflexivity.
    simpl. repeat first [apply NoDup_nil_2 | apply NoDup_cons_2]; set_solver.
Defined.

(** * Further properties of the directives *)

(** ** [register_phase] *)

Lemma merge_deps_absorb (cur deps : list string) :
  (∀ d, d ∈ deps → d ∈ cur) → merge_deps cur deps = cur.
Proof.
  intros Hin. rewrite merge_deps_dedupe.
  rewrite dedupe_from_covered; [by rewrite app_nil_r|].
  intros k Hk. rewrite list_fmap_id in Hk. by apply Hin.
Qed.

Lemma pd_register_twice (p n : string) (d1 d2 : list string)
    (pd : gmap string (gmap string (list string))) :
  pd_register p n d2 (pd_register p n d1 pd) = pd_register p n (d1 ++ d2) pd.
Proof.
  unfold pd_register. rewrite lookup_insert_eq. simpl.
  rewrite lookup_insert_eq. simpl.
  by rewrite !insert_insert_eq, merge_deps_app.
Qed.

Lemma pd_register_commute (p1 n1 p2 n2 : string) (d1 d2 : list string)
    (pd : gmap string (gmap string (list string))) :
  p1 ≠ p2 ∨ n1 ≠ n2 →
  pd_register p1 n1 d1 (pd_register p2 n2 d2 pd)
  = pd_register p2 n2 d2 (pd_register p1 n1 d1 pd).
Proof.
  intros Hne. unfold pd_register.
  destruct (decide (p1 = p2)) as [->|Hp].
  - destruct Hne as [?|Hn]; [done|].
    rewrite !lookup_insert_eq. simpl.
    rewrite !lookup_insert_ne by done.
    rewrite !insert_insert_eq. f_equal. by apply insert_insert_ne.
  - rewrite !lookup_insert_ne by done.
    by apply insert_insert_ne.
Qed.

(** X1. Whatever its arguments and whether it raises or not, an
    execution of [register_phase] changes nothing but the list of its own
    phase: name, pipelines, workloads, executables and workload variables
    are what they were, and so is every list of another pipeline or of
    another phase. *)
Theorem register_phase_frame
    (name : string) (pipeline : option string) (depends_on : pyval) (app : Application) :
  let app' := final_state (_execute_register_phase name pipeline depends_on app) in
  app_name app' = app_name app
  ∧ _pipelines app' = _pipelines app
  ∧ workloads app' = workloads app
  ∧ executables app' = executables app
  ∧ workload_variables app' = workload_variables app
  ∧ (∀ p', pipeline ≠ Some p' → phase_definitions app' !! p' = phase_definitions app !! p')
  ∧ (∀ p' n', n' ≠ name →
       phase_definitions app' !! p' ≫= (λ m, m !! n')
       = phase_definitions app !! p' ≫= (λ m, m !! n')).
Proof.
  destruct (register_phase_cases name pipeline depends_on app)
    as [[e ->]|(p & deps & -> & -> & Hp & ->)]; simpl; [done|].
  repeat (split; [reflexivity|]). unfold pd_register. split.
  - intros p' Hne. apply lookup_insert_ne. congruence.
  - intros p' n' Hne. destruct (decide (p = p')) as [<-|Hpp].
    + rewrite lookup_insert_eq. simpl. rewrite lookup_insert_ne by done.
      destruct (phase_definitions app !! p); [done|apply lookup_empty].
    + by rewrite lookup_insert_ne.
Qed.

(** X2. On a recognised pipeline, registering a phase with the list [D1]
    and then with the list [D2] leaves the instance that one registration
    with [D1 ++ D2] leaves. *)
Theorem register_phase_twice_is_concat
    (name p : string) (D1 D2 : list string) (app : Application) :
  p ∈ _pipelines app →
  ∃ app1,
    _execute_register_phase name (Some p) (PyList D1) app = Done app1
    ∧ _execute_register_phase name (Some p) (PyList D2) app1
      = _execute_register_phase name (Some p) (PyList (D1 ++ D2)) app.
Proof.
  intros Hp. eexists. split; [by apply register_phase_ok|].
  rewrite !register_phase_ok by done. f_equal.
  rewrite set_phase_definitions_twice. apply set_phase_definitions_ext.
  apply pd_register_twice.
Qed.

(** X3. A registration that brings nothing new changes nothing: when the
    phase is already registered in a recognised pipeline and every
    dependency given is already in its list, the closure succeeds and the
    instance is untouched.  Hence registering twice with the same list is
    registering once. *)
Theorem register_phase_absorbs :
  (∀ (name p : string) (deps cur : list string) (m : gmap string (list string))
     (app : Application),
     p ∈ _pipelines app →
     phase_definitions app !! p = Some m → m !! name = Some cur →
     (∀ d, d ∈ deps → d ∈ cur) →
     _execute_register_phase name (Some p) (PyList deps) app = Done app)
  ∧ (∀ (name p : string) (deps : list string) (app : Application),
       p ∈ _pipelines app →
       ∃ app1,
         _execute_register_phase name (Some p) (PyList deps) app = Done app1
         ∧ _execute_register_phase name (Some p) (PyList deps) app1 = Done app1).
Proof.
  assert (Habs : ∀ (name p : string) (deps cur : list string)
            (m : gmap string (list string)) (app : Application),
            p ∈ _pipelines app →
            phase_definitions app !! p = Some m → m !! name = Some cur →
            (∀ d, d ∈ deps → d ∈ cur) →
            _execute_register_phase name (Some p) (PyList deps) app = Done app).
  { intros name p deps cur m app Hp Hm Hcur Hin.
    rewrite register_phase_ok by done. f_equal.
    apply set_phase_definitions_same. unfold pd_register. rewrite Hm. simpl.
    rewrite Hcur. simpl. rewrite merge_deps_absorb by done.
    rewrite (insert_id m name cur Hcur). by apply insert_id. }
  split; [exact Habs|].
  intros name p deps app Hp. eexists. split; [by apply register_phase_ok|].
  eapply Habs.
  - done.
  - rewrite phase_definitions_set. unfold pd_register. apply lookup_insert_eq.
  - apply lookup_insert_eq.
  - intros d Hd. apply elem_of_merge_deps. by right.
Qed.

(** X4. Registrations of two different phases, or of one phase name in
    two different pipelines, commute: on recognised pipelines both orders
    succeed and end with the same dependency graph and the same
    instance, dictionaries being compared by content. *)
Theorem register_phase_commutes
    (n1 p1 n2 p2 : string) (D1 D2 : list string) (app : Application) :
  p1 ∈ _pipelines app → p2 ∈ _pipelines app →
  p1 ≠ p2 ∨ n1 ≠ n2 →
  ∃ a1 a2 b,
    _execute_register_phase n1 (Some p1) (PyList D1) app = Done a1
    ∧ _execute_register_phase n2 (Some p2) (PyList D2) a1 = Done b
    ∧ _execute_register_phase n2 (Some p2) (PyList D2) app = Done a2
    ∧ _execute_register_phase n1 (Some p1) (PyList D1) a2 = Done b.
Proof.
  intros Hp1 Hp2 Hne. eexists _, _, _.
  split; [by apply register_phase_ok|].
  split; [by apply register_phase_ok|].
  split; [by apply register_phase_ok|].
  rewrite register_phase_ok by done. f_equal.
  rewrite !set_phase_definitions_twice. apply set_phase_definitions_ext.
  by apply pd_register_commute.
Qed.

(** X5. With an empty [depends_on], the default, a registration on a
    recognised pipeline only makes sure the phase exists: afterwards
    [phase_definitions[p][name]] exists and holds what was recorded
    before, nothing for a new phase, and the lists of the other phases of
    the pipeline are kept. *)
Theorem register_phase_without_dependencies
    (name p : string) (app : Application) :
  p ∈ _pipelines app →
  ∃ app',
    _execute_register_phase name (Some p) (PyList []) app = Done app'
    ∧ phase_definitions app' !! p ≫= (λ m, m !! name) = Some (phase_deps app p name)
    ∧ (phase_definitions app !! p ≫= (λ m, m !! name) = None →
       phase_definitions app' !! p ≫= (λ m, m !! name) = Some [])
    ∧ (∀ n', phase_deps app' p n' = phase_deps app p n').
Proof.
  intros Hp. eexists. split; [by apply register_phase_ok|].
  assert (Hlook : phase_definitions (set_phase_definitions (pd_register p name []) app) !! p
                    ≫= (λ m, m !! name) = Some (phase_deps app p name)).
  { by rewrite phase_deps_lookup_register. }
  split; [exact Hlook|]. split.
  - intros Hnone. rewrite Hlook. unfold phase_deps. by rewrite Hnone.
  - intros n'. rewrite phase_deps_register. by case_decide as Heq; [destruct Heq as [_ ->]|].
Qed.

(** ** [workload_variable] *)

Lemma Application_eq (a b : Application) :
  app_name a = app_name b → _pipelines a = _pipelines b →
  workloads a = workloads b → executables a = executables b →
  workload_variables a = workload_variables b →
  phase_definitions a = phase_definitions b → a = b.
Proof. destruct a, b; simpl; intros; by subst. Qed.

Lemma define_workload_variable_frame (name : string) (dflt : pyval) (description : string)
    (values : pyval) (expandable : bool) (app : Application) (wl_name : string) :
  let app' := define_workload_variable name dflt description values expandable app wl_name in
  app_name app' = app_name app ∧ _pipelines app' = _pipelines app
  ∧ workloads app' = workloads app ∧ executables app' = executables app
  ∧ phase_definitions app' = phase_definitions app.
Proof.
  unfold define_workload_variable.
  destruct (decide (is_Some (workload_variables app !! wl_name))), (truthy values); done.
Qed.

Lemma workload_variable_loop_frame (name : string) (dflt : pyval) (description : string)
    (values : pyval) (expandable : bool) (ws : list string) (app : Application) :
  let app' := foldl (define_workload_variable name dflt description values expandable)
                    app ws in
  app_name app' = app_name app ∧ _pipelines app' = _pipelines app
  ∧ workloads app' = workloads app ∧ executables app' = executables app
  ∧ phase_definitions app' = phase_definitions app.
Proof.
  revert app; induction ws as [|w ws IH]; intros app; cbn [foldl]; [done|].
  destruct (IH (define_workload_variable name dflt description values expandable app w))
    as (-> & -> & -> & -> & ->).
  apply define_workload_variable_frame.
Qed.

(** X6. [workload_variable] writes to [workload_variables] alone, and
    nothing at all when it raises: for any resolver of the workload
    names, the closure raises exactly when the resolver does, with its
    error and the instance untouched, and after a success name,
    pipelines, workloads, executables and phase definitions are what they
    were, as are the variables of every workload outside the resolved
    names. *)
Theorem workload_variable_frame
    (rd : pyval → pyval → string → string → string → result (list string))
    (name : string) (dflt : pyval) (description : string)
    (values wl wls : pyval) (expandable : bool) (app : Application) :
  let run := _execute_workload_variable rd name dflt description values wl wls
               expandable app in
  (∀ e, rd wl wls "workload" "workloads" "workload_variable" = Err e ↔ run = Raised e app)
  ∧ (∀ e app', run = Raised e app' → app' = app)
  ∧ (∀ app', run = Done app' →
       app_name app' = app_name app ∧ _pipelines app' = _pipelines app
       ∧ workloads app' = workloads app
       ∧ executables app' = executables app
       ∧ phase_definitions app' = phase_definitions app
       ∧ ∃ ws, rd wl wls "workload" "workloads" "workload_variable" = Ok ws
               ∧ ∀ w, w ∉ ws → workload_variables app' !! w = workload_variables app !! w).
Proof.
  unfold _execute_workload_variable.
  destruct (rd wl wls _ _ _) as [ws|e0]; cbv zeta.
  - split; [intros e; split; discriminate|]. split; [discriminate|].
    intros app' [= <-].
    destruct (workload_variable_loop_frame name dflt description values expandable ws app)
      as (-> & -> & -> & -> & ->).
    repeat (split; [reflexivity|]). exists ws. split; [done|].
    intros w Hw. by rewrite workload_variable_loop, decide_False.
  - split; [|split; [|discriminate]].
    + intros e. split; intros [= ->]; done.
    + by intros e app' [= _ <-].
Qed.

(** X7. The outcome of [workload_variable] depends on the resolved
    workload names as a set only: two resolutions listing the same names,
    in any order and any number of times, lead to the same instance,
    dictionaries being compared by content. *)
Theorem workload_variable_names_as_set
    (rd rd' : pyval → pyval → string → string → string → result (list string))
    (name : string) (dflt : pyval) (description : string)
    (values wl wls wl' wls' : pyval) (expandable : bool) (app : Application)
    (ws ws' : list string) :
  rd wl wls "workload" "workloads" "workload_variable" = Ok ws →
  rd' wl' wls' "workload" "workloads" "workload_variable" = Ok ws' →
  (∀ w, w ∈ ws ↔ w ∈ ws') →
  _execute_workload_variable rd name dflt description values wl wls expandable app
  = _execute_workload_variable rd' name dflt description values wl' wls' expandable app.
Proof.
  intros Hrd Hrd' Hsame. unfold _execute_workload_variable. rewrite Hrd, Hrd'. f_equal.
  destruct (workload_variable_loop_frame name dflt description values expandable ws app)
    as (H1 & H2 & H3 & H4 & H5).
  destruct (workload_variable_loop_frame name dflt description values expandable ws' app)
    as (H1' & H2' & H3' & H4' & H5').
  apply Application_eq; try congruence.
  apply map_eq. intros w. rewrite !workload_variable_loop.
  destruct (decide (w ∈ ws)) as [Hw|Hw].
  - rewrite decide_True; [done|by apply Hsame].
  - rewrite decide_False; [done|]. by rewrite <- Hsame.
Qed.

(** X8. [workload_variable] is idempotent: for any resolver, running the
    closure a second time on the instance the first run produced changes
    nothing. *)
Theorem workload_variable_idempotent
    (rd : pyval → pyval → string → string → string → result (list string))
    (name : string) (dflt : pyval) (description : string)
    (values wl wls : pyval) (expandable : bool) (app app' : Application) :
  _execute_workload_variable rd name dflt description values wl wls expandable app
  = Done app' →
  _execute_workload_variable rd name dflt description values wl wls expandable app'
  = Done app'.
Proof.
  unfold _execute_workload_variable.
  destruct (rd wl wls _ _ _) as [ws|e0]; [|discriminate].
  intros [= <-]. f_equal.
  set (app1 := foldl (define_workload_variable name dflt description values expandable)
                     app ws).
  destruct (workload_variable_loop_frame name dflt description values expandable ws app1)
    as (H1 & H2 & H3 & H4 & H5).
  apply Application_eq; try done.
  apply map_eq. intros w. rewrite workload_variable_loop. unfold app1.
  rewrite workload_variable_loop.
  destruct (decide (w ∈ ws)); [|done]. simpl. by rewrite insert_insert_eq.
Qed.

(** ** [workload] *)

(** X9. Whether it raises or not and whatever the two helpers are, the
    closure of [workload] changes the record under its own name and
    nothing else: every other workload is kept, and name, pipelines,
    executables, workload variables and phase definitions are what they
    were. *)
Theorem workload_writes_own_record
    (rd : pyval → pyval → string → string → string → result (list string))
    (md : pyval → pyval → list string)
    (name : string) (exs ex input_arg inputs_arg : pyval)
    (tags : option (list string)) (app : Application) :
  let app' := final_state (_execute_workload rd md name exs ex input_arg inputs_arg tags app) in
  (∀ other, other ≠ name → workloads app' !! other = workloads app !! other)
  ∧ is_Some (workloads app' !! name)
  ∧ app_name app' = app_name app ∧ _pipelines app' = _pipelines app
  ∧ executables app' = executables app
  ∧ workload_variables app' = workload_variables app
  ∧ phase_definitions app' = phase_definitions app.
Proof.
  rewrite workload_outcome.
  destruct (rd ex exs _ _ _) as [all_execs|e]; simpl.
  - split; [intros other Hne; by apply lookup_insert_ne|].
    split; [|done]. rewrite lookup_insert_eq. by eexists.
  - split; [intros other Hne; by apply lookup_insert_ne|].
    split; [|done]. rewrite lookup_insert_eq. by eexists.
Qed.

(** ** [register_phase] beside the other directives *)

Lemma append_if_missing_set_workloads f (p n dep : string) (app : Application) :
  append_if_missing p n dep (set_workloads f app)
  = set_workloads f (append_if_missing p n dep app).
Proof.
  unfold append_if_missing. simpl.
  by destruct (decide (dep ∈ getitem (getitem (phase_definitions app) p) n)).
Qed.

Lemma register_phase_set_workloads f (name : string) (pipeline : option string)
    (depends_on : pyval) (app : Application) :
  _execute_register_phase name pipeline depends_on (set_workloads f app)
  = match _execute_register_phase name pipeline depends_on app with
    | Done app' => Done (set_workloads f app')
    | Raised e app' => Raised e (set_workloads f app')
    end.
Proof.
  unfold _execute_register_phase, recognized. simpl.
  destruct pipeline as [p|]; [|done].
  destruct (decide (p ∈ _pipelines app)); [|done].
  destruct (negb (isinstance_list depends_on)); [done|]. f_equal.
  assert (H1 : ensure_pipeline p (set_workloads f app)
               = set_workloads f (ensure_pipeline p app)).
  { unfold ensure_pipeline. simpl.
    by destruct (decide (is_Some (phase_definitions app !! p))). }
  assert (H2 : ∀ a, ensure_phase p name (set_workloads f a)
                    = set_workloads f (ensure_phase p name a)).
  { intros a. unfold ensure_phase. simpl.
    by destruct (decide (is_Some (getitem (phase_definitions a) p !! name))). }
  rewrite H1, H2. generalize (ensure_phase p name (ensure_pipeline p app)).
  induction (iter_list depends_on) as [|d ds IH]; intros a; cbn [foldl]; [done|].
  by rewrite append_if_missing_set_workloads, IH.
Qed.

(** X10. [register_phase] and [workload] do not see each other: for any
    helpers of [workload], when each closure succeeds on an instance,
    running them one after the other succeeds in both orders and ends
    with the same instance. *)
Theorem register_phase_workload_commute
    (rd : pyval → pyval → string → string → string → result (list string))
    (md : pyval → pyval → list string)
    (wname : string) (exs ex input_arg inputs_arg : pyval) (tags : option (list string))
    (pname : string) (pipeline : option string) (depends_on : pyval)
    (app a1 a2 : Application) :
  _execute_workload rd md wname exs ex input_arg inputs_arg tags app = Done a1 →
  _execute_register_phase pname pipeline depends_on app = Done a2 →
  ∃ b,
    _execute_register_phase pname pipeline depends_on a1 = Done b
    ∧ _execute_workload rd md wname exs ex input_arg inputs_arg tags a2 = Done b.
Proof.
  rewrite !workload_outcome.
  destruct (rd ex exs _ _ _) as [all_execs|e]; [|discriminate].
  intros [= <-] Hrp. rewrite register_phase_set_workloads, Hrp. by eexists.
Qed.

(** ** [executable] *)

(** X11. [executable] writes the entry of its own name and nothing else,
    and the last declaration of a name is the one that stays: after two
    executions with the same name the instance is what the second alone
    would leave, and executions with different names commute,
    dictionaries being compared by content. *)
Theorem executable_last_write_wins
    (n1 n2 : string) (t1 t2 : pyval) (mpi1 mpi2 : bool) (v1 v2 : gmap string string)
    (r1 r2 : string) (oc1 oc2 : OUTPUT_CAPTURE) (app : Application) :
  let first := _execute_executable n1 t1 mpi1 v1 r1 oc1 in
  let second := _execute_executable n2 t2 mpi2 v2 r2 oc2 in
  (∀ other, other ≠ n1 →
     executables (final_state (first app)) !! other = executables app !! other)
  ∧ workloads (final_state (first app)) = workloads app
  ∧ workload_variables (final_state (first app)) = workload_variables app
  ∧ phase_definitions (final_state (first app)) = phase_definitions app
  ∧ (n1 = n2 → second (final_state (first app)) = second app)
  ∧ (n1 ≠ n2 →
     second (final_state (first app)) = first (final_state (second app))).
Proof.
  unfold _execute_executable. simpl.
  split; [intros other Hne; by apply lookup_insert_ne|].
  repeat (split; [reflexivity|]). split.
  - intros ->. unfold set_executables. simpl. by rewrite insert_insert_eq.
  - intros Hne. unfold set_executables. simpl. f_equal. f_equal.
    by apply insert_insert_ne.
Qed.

(** ** [input_file] *)

(** X12. [input_file] stores its six arguments under their six keys and
    under no other key, whatever was stored under the name before; it
    keeps every other input and the rest of the instance; a second
    declaration of the same name leaves what it alone would leave, and
    declarations of different names commute, dictionaries being compared
    by content. *)
Theorem input_file_stores_and_replaces
    (n1 n2 : string) (url description target_dir sha256 extension expand : pyval)
    (url2 description2 target_dir2 sha2562 extension2 expand2 : pyval) (app : Instance) :
  let first := _execute_input_file n1 url description target_dir sha256 extension expand in
  let second :=
    _execute_input_file n2 url2 description2 target_dir2 sha2562 extension2 expand2 in
  (∃ record,
     inputs (instance_state (first app)) !! n1 = Some record
     ∧ record !! "url" = Some url ∧ record !! "description" = Some description
     ∧ record !! "target_dir" = Some target_dir ∧ record !! "sha256" = Some sha256
     ∧ record !! "extension" = Some extension ∧ record !! "expand" = Some expand
     ∧ dom record = {[ "url"; "description"; "target_dir"; "sha256"; "extension";
                       "expand" ]})
  ∧ (∀ other, other ≠ n1 →
       inputs (instance_state (first app)) !! other = inputs app !! other)
  ∧ core (instance_state (first app)) = core app
  ∧ environment_variables (instance_state (first app)) = environment_variables app
  ∧ (n1 = n2 → second (instance_state (first app)) = second app)
  ∧ (n1 ≠ n2 →
     second (instance_state (first app)) = first (instance_state (second app))).
Proof.
  unfold _execute_input_file, set_inputs. simpl. split.
  - eexists. split; [apply lookup_insert_eq|].
    repeat (split; [reflexivity|]). rewrite !dom_insert_L, dom_singleton_L. set_solver.
  - split; [intros other Hne; by apply lookup_insert_ne|].
    repeat (split; [reflexivity|]). split.
    + intros ->. by rewrite insert_insert_eq.
    + intros Hne. do 2 f_equal. by apply insert_insert_ne.
Qed.

(** ** [environment_variable] *)

Lemma define_environment_variable_spec (name : string) (value description : pyval)
    (app : Instance) (wl_name : string) :
  define_environment_variable name value description app wl_name
  = set_environment_variables
      (λ ev, <[wl_name := <[name := {[ "value" := value; "action" := PyStr "set";
                                       "description" := description ]}]>
                            (default ∅ (ev !! wl_name))]> ev) app.
Proof.
  unfold define_environment_variable, set_environment_variables, getitem.
  destruct (decide (is_Some (environment_variables app !! wl_name))) as [[vars Hv]|Hn].
  - simpl. by rewrite (lookup_total_correct _ _ _ Hv), Hv.
  - simpl. rewrite lookup_total_insert_eq, insert_insert_eq.
    destruct (environment_variables app !! wl_name) eqn:E; [|done].
    exfalso. apply Hn. by eexists.
Qed.

Lemma environment_variable_loop (name : string) (value description : pyval)
    (ws : list string) (app : Instance) :
  let app' := foldl (define_environment_variable name value description) app ws in
  core app' = core app ∧ inputs app' = inputs app
  ∧ ∀ w, environment_variables app' !! w
         = if decide (w ∈ ws)
           then Some (<[name := {[ "value" := value; "action" := PyStr "set";
                                   "description" := description ]}]>
                        (default ∅ (environment_variables app !! w)))
           else environment_variables app !! w.
Proof.
  revert app; induction ws as [|w0 ws IH]; intros app; cbn [foldl].
  - repeat (split; [reflexivity|]). intros w.
    rewrite decide_False; [done|apply not_elem_of_nil].
  - destruct (IH (define_environment_variable name value description app w0))
      as (-> & -> & Hev).
    split; [by rewrite define_environment_variable_spec|].
    split; [by rewrite define_environment_variable_spec|].
    intros w. rewrite Hev, define_environment_variable_spec. simpl.
    destruct (decide (w = w0)) as [->|Hne].
    + rewrite lookup_insert_eq, (decide_True (P := w0 ∈ w0 :: ws)) by (by left). simpl.
      destruct (decide (w0 ∈ ws)); [by rewrite insert_insert_eq|done].
    + rewrite lookup_insert_ne by done.
      destruct (decide (w ∈ ws)) as [Hin|Hnin].
      * rewrite decide_True; [done|by right].
      * rewrite decide_False; [done|]. by intros [?|?]%elem_of_cons.
Qed.

(** X13. For any resolver of the workload names, when it returns the
    names [ws] the closure of [environment_variable] succeeds and leaves,
    for each name in [ws], the entry [{value, action, description}] under
    [environment_variables[w][name]], its action always being [set]; the
    other variables of those workloads, the other workloads, the inputs
    and the rest of the instance are untouched. *)
Theorem environment_variable_defines
    (rd : pyval → pyval → string → string → string → result (list string))
    (name : string) (value description wl wls : pyval) (app : Instance)
    (ws : list string) :
  rd wl wls "workload" "workloads" "environment_variable" = Ok ws →
  ∃ app',
    _execute_environment_variable rd name value description wl wls app = Finished app'
    ∧ (∀ w, w ∈ ws →
         environment_entry app' w name
         = Some {[ "value" := value; "action" := PyStr "set";
                   "description" := description ]}
         ∧ (∀ other, other ≠ name →
              environment_entry app' w other = environment_entry app w other))
    ∧ (∀ w, w ∉ ws → environment_variables app' !! w = environment_variables app !! w)
    ∧ core app' = core app ∧ inputs app' = inputs app.
Proof.
  intros Hrd. unfold _execute_environment_variable. rewrite Hrd.
  eexists. split; [reflexivity|].
  destruct (environment_variable_loop name value description ws app) as (Hc & Hi & Hev).
  split; [|split; [|done]].
  - intros w Hw. unfold environment_entry. rewrite Hev, decide_True by done. simpl.
    split; [apply lookup_insert_eq|].
    intros other Hne. rewrite lookup_insert_ne by done.
    destruct (environment_variables app !! w); [done|apply lookup_empty].
  - intros w Hw. by rewrite Hev, decide_False.
Qed.

(** X14. [environment_variable] raises exactly when the resolver of the
    workload names does, with the resolver's error, and then nothing has
    been written: the instance at the raise is the instance before the
    call.  A closure that succeeded changes nothing when run again. *)
Theorem environment_variable_atomic_idempotent
    (rd : pyval → pyval → string → string → string → result (list string))
    (name : string) (value description wl wls : pyval) (app : Instance) :
  let run := _execute_environment_variable rd name value description wl wls in
  (∀ e, rd wl wls "workload" "workloads" "environment_variable" = Err e ↔
        run app = Failed e app)
  ∧ (∀ e app', run app = Failed e app' → app' = app)
  ∧ (∀ app', run app = Finished app' → run app' = Finished app').
Proof.
  unfold _execute_environment_variable.
  destruct (rd wl wls _ _ _) as [ws|e0]; cbv zeta.
  - split; [intros e; split; discriminate|]. split; [discriminate|].
    intros app' [= <-]. f_equal.
    set (app1 := foldl (define_environment_variable name value description) app ws).
    destruct (environment_variable_loop name value description ws app1) as (Hc & Hi & Hev).
    destruct (environment_variable_loop name value description ws app) as (_ & _ & Hev0).
    fold app1 in Hev0.
    destruct (foldl _ app1 ws) as [c i ev] eqn:E. simpl in *.
    destruct app1 as [c1 i1 ev1]. simpl in *. subst c i. f_equal.
    apply map_eq. intros w. rewrite Hev, Hev0.
    destruct (decide (w ∈ ws)); [|done]. simpl. by rewrite insert_insert_eq.
  - split; [|split; [|discriminate]].
    + intros e. split; intros [= ->]; done.
    + by intros e app' [= _ <-].
Qed.

(** ** Worked instances of the further properties *)

Lemma registered_app_setup : "setup" ∈ _pipelines registered_app.
Proof. unfold registered_app; simpl. in_list. Qed.

Lemma registered_app_X : "X" ∈ _pipelines registered_app.
Proof. unfold registered_app; simpl. in_list. Qed.

Lemma register_phase_twice_is_concat_witness :
  ∃ app1,
    _execute_register_phase "p" (Some "setup") (PyList ["b"]) registered_app = Done app1
    ∧ _execute_register_phase "p" (Some "setup") (PyList ["c"; "a"]) app1
      = _execute_register_phase "p" (Some "setup") (PyList (["b"] ++ ["c"; "a"]))
          registered_app.
Proof.
  exact (register_phase_twice_is_concat "p" "setup" ["b"] ["c"; "a"] registered_app
           registered_app_setup).
Defined.

Lemma register_phase_absorbs_witness :
  _execute_register_phase "p" (Some "setup") (PyList ["a"; "a"]) registered_app
  = Done registered_app.
Proof.
  apply (proj1 register_phase_absorbs "p" "setup" ["a"; "a"] ["a"] {[ "p" := ["a"] ]}
           registered_app registered_app_setup).
  - reflexivity.
  - reflexivity.
  - intros d Hd. apply elem_of_cons in Hd as [->|Hd]; [in_list|exact Hd].
Defined.

Lemma register_phase_commutes_witness :
  ∃ a1 a2 b,
    _execute_register_phase "p" (Some "setup") (PyList ["b"]) registered_app = Done a1
    ∧ _execute_register_phase "q" (Some "setup") (PyList ["p"]) a1 = Done b
    ∧ _execute_register_phase "q" (Some "setup") (PyList ["p"]) registered_app = Done a2
    ∧ _execute_register_phase "p" (Some "setup") (PyList ["b"]) a2 = Done b.
Proof.
  apply (register_phase_commutes "p" "setup" "q" "setup" ["b"] ["p"] registered_app
           registered_app_setup registered_app_setup).
  right. discriminate.
Defined.

Lemma register_phase_without_dependencies_witness :
  ∃ app',
    _execute_register_phase "q" (Some "X") (PyList []) registered_app = Done app'
    ∧ phase_definitions app' !! "X" ≫= (λ m, m !! "q") = Some [].
Proof.
  destruct (register_phase_without_dependencies "q" "X" registered_app registered_app_X)
    as (app' & Hrun & _ & Hnew & _).
  exists app'. split; [exact Hrun|]. apply Hnew. reflexivity.
Defined.

Lemma workload_variable_names_as_set_witness :
  workload_variable_step "v" (PyStr "1") "d" PyNone PyNone (PyList ["w1"; "w2"]) true
    loaded_app
  = workload_variable_step "v" (PyStr "1") "d" PyNone PyNone (PyList ["w2"; "w1"; "w2"]) true
      loaded_app.
Proof.
  apply (workload_variable_names_as_set
           language_helpers.require_definition language_helpers.require_definition
           "v" (PyStr "1") "d" PyNone PyNone (PyList ["w1"; "w2"])
           PyNone (PyList ["w2"; "w1"; "w2"]) true loaded_app
           ["w1"; "w2"] ["w2"; "w1"]).
  - reflexivity.
  - reflexivity.
  - intros w. rewrite !elem_of_cons, !elem_of_nil. tauto.
Defined.

Lemma workload_variable_idempotent_witness :
  ∃ app',
    workload_variable_step "v" (PyStr "1") "d" (PyList ["x"]) (PyStr "w") PyNone true
      loaded_app = Done app'
    ∧ workload_variable_step "v" (PyStr "1") "d" (PyList ["x"]) (PyStr "w") PyNone true
        app' = Done app'.
Proof.
  eexists. split; [reflexivity|].
  apply (workload_variable_idempotent language_helpers.require_definition
           "v" (PyStr "1") "d" (PyList ["x"]) (PyStr "w") PyNone true loaded_app).
  reflexivity.
Defined.

Lemma register_phase_workload_commute_witness :
  ∃ a1 a2 b,
    workload_step "w2" (PyList ["e1"]) PyNone PyNone PyNone (Some ["t"]) registered_app
    = Done a1
    ∧ _execute_register_phase "q" (Some "setup") (PyList ["p"]) registered_app = Done a2
    ∧ _execute_register_phase "q" (Some "setup") (PyList ["p"]) a1 = Done b
    ∧ workload_step "w2" (PyList ["e1"]) PyNone PyNone PyNone (Some ["t"]) a2 = Done b.
Proof.
  eexists _, _. 
  assert (H1 : workload_step "w2" (PyList ["e1"]) PyNone PyNone PyNone (Some ["t"])
                 registered_app
               = Done (set_workloads
                         (λ w, <["w2" := {[ "executables" := ["e1"]; "inputs" := [];
                                            "tags" := ["t"] ]}]> w) registered_app)).
  { unfold workload_step. rewrite workload_outcome. reflexivity. }
  assert (H2 : _execute_register_phase "q" (Some "setup") (PyList ["p"]) registered_app
               = Done (set_phase_definitions (pd_register "setup" "q" ["p"])
                         registered_app)).
  { apply register_phase_ok, registered_app_setup. }
  destruct (register_phase_workload_commute
              language_helpers.require_definition language_helpers.merge_definitions
              "w2" (PyList ["e1"]) PyNone PyNone PyNone (Some ["t"])
              "q" (Some "setup") (PyList ["p"]) registered_app _ _ H1 H2) as (b & Hb1 & Hb2).
  exists b. split; [exact H1|]. split; [exact H2|]. split; [exact Hb1|exact Hb2].
Defined.

Lemma environment_variable_defines_witness :
  ∃ app',
    _execute_environment_variable language_helpers.require_definition
      "OMP_PROC_BIND" (PyStr "close") (PyStr "binding") PyNone (PyList ["w"; "w2"])
      stocked_instance = Finished app'
    ∧ environment_entry app' "w2" "OMP_PROC_BIND"
      = Some {[ "value" := PyStr "close"; "action" := PyStr "set";
                "description" := PyStr "binding" ]}
    ∧ environment_entry app' "w" "OMP_NUM_THREADS"
      = environment_entry stocked_instance "w" "OMP_NUM_THREADS".
Proof.
  destruct (environment_variable_defines language_helpers.require_definition
              "OMP_PROC_BIND" (PyStr "close") (PyStr "binding") PyNone (PyList ["w"; "w2"])
              stocked_instance ["w"; "w2"] eq_refl) as (app' & Hrun & Hentry & _).
  exists app'. split; [exact Hrun|]. split.
  - apply (Hentry "w2"). in_list.
  - apply (Hentry "w"); [in_list|discriminate].
Defined.
